(** * The gleam worker agent: gRPC handlers and the MergeTo instruction

    A shallow embedding of
    - [distributed/agent/agent_grpc_server.go]: [SendFileResource],
      [Execute], [executeCommand], the two output pumps, [streamPulse],
      [sendExitStats], [plusAllocated] and [minusAllocated];
    - the [instruction] package's [DoMergeTo].

    Sequential handlers are state-passing functions over an explicit world.
    The execution supervisor and its goroutines are a small-step machine
    driven by a schedule: every element of the schedule names the goroutine
    that moves and the answer the operating system or the transport gives. *)

From Stdlib Require Import ZArith List Lia Bool DecimalString.
From stdpp Require Import base option list strings gmap.

Import ListNotations.

(** ** Go values shared by all handlers *)

(** A Go [error].  [io.EOF] is the one sentinel the code compares against;
    [Errorf] is the value built by [fmt.Errorf(format, cause)]; every other
    error comes from the operating system, the transport, the context or a
    library, and is kept as its text.  The Go [nil] error is [None] in
    [option error]. *)
Inductive error : Type :=
| io_EOF
| Err (msg : string)
| Errorf (format : string) (cause : error).

(** [err == io.EOF] *)
Definition is_EOF (e : error) : bool :=
  match e with
  | io_EOF => true
  | _ => false
  end.

Definition bytes : Type := list Byte.byte.

(** ** The MergeTo instruction *)

Module MergeTo.

(** One length-delimited message, as [util.ReadMessage] returns it. *)
Definition message : Type := bytes.

(** An [io.Reader] as [DoMergeTo] observes it through [util.ReadMessage]:
    the messages that successive calls return with a nil error, then the
    first non-nil error ([io.EOF] at a regular end).  [DoMergeTo] never
    reads a reader again once it has returned an error. *)
Record Reader : Type := mkReader {
  pending : list message;
  closing : error
}.

(** The [io.Writer] behind [util.WriteMessage]: the messages accepted so
    far, and the answers to the coming calls ([Some e] makes that call
    fail with [e]; past the end of the script every call succeeds). *)
Record Writer : Type := mkWriter {
  written : list message;
  faults : list (option error)
}.

(** [util.WriteMessage(writer, x)] *)
Definition WriteMessage (w : Writer) (x : message) : option error * Writer :=
  match faults w with
  | Some e :: rest => (Some e, mkWriter (written w) rest)
  | None :: rest => (None, mkWriter (written w ++ [x]) rest)
  | [] => (None, mkWriter (written w ++ [x]) [])
  end.

(** How the inner loop over one reader ends. *)
Inductive loop_exit : Type :=
| ReadStopped (err : error)   (* [err != nil] after a ReadMessage *)
| WriteStopped (err : error). (* the [return err] inside the loop *)

(** Lines 51-57: [x, err := ReadMessage(reader); for err == nil { ... }]. *)
Fixpoint forward (xs : list message) (last : error) (w : Writer)
  : loop_exit * Writer :=
  match xs with
  | [] => (ReadStopped last, w)
  | x :: xs' =>
      match WriteMessage w x with
      | (Some e, w') => (WriteStopped e, w')
      | (None, w') => forward xs' last w'
      end
  end.

(** Lines 48-64. *)
Fixpoint DoMergeTo (readers : list Reader) (w : Writer)
  : option error * Writer :=
  match readers with
  | [] => (None, w)
  | reader :: rest =>
      match forward (pending reader) (closing reader) w with
      | (WriteStopped e, w') => (Some e, w')
      | (ReadStopped err, w') =>
          if is_EOF err then DoMergeTo rest w' else (Some err, w')
      end
  end.

(** The messages [DoMergeTo] gets to read when no write fails: those of
    every reader up to and including the first one that does not end in
    [io.EOF]. *)
Fixpoint readable (readers : list Reader) : list message :=
  match readers with
  | [] => []
  | r :: rest =>
      pending r ++ (if is_EOF (closing r) then readable rest else [])
  end.

(** The first read error that is not [io.EOF], in list order. *)
Fixpoint first_read_error (readers : list Reader) : option error :=
  match readers with
  | [] => None
  | r :: rest =>
      if is_EOF (closing r) then first_read_error rest else Some (closing r)
  end.

(** The first [n] calls of the writer succeed. *)
Definition accepts (n : nat) (w : Writer) : Prop :=
  Forall (fun a => a = None) (take n (faults w)).

End MergeTo.

(** ** The file-resource receiver *)

(** [fmt.Sprintf("%d", n)] *)
Definition Sprintf_d (n : Z) : string := NilZero.string_of_int (Z.to_int n).

Module Upload.

(** [pb.FileResourceRequest]: the first message of an upload carries the
    metadata, the following ones the content. *)
Record FileResourceRequest : Type := mkRequest {
  Name : string;
  Dir : string;
  Hash : Z;          (* uint32 *)
  FlowHashCode : Z;  (* uint32 *)
  Content : bytes
}.

(** [pb.FileResourceResponse], built positionally at line 46. *)
Record FileResourceResponse : Type := mkResponse {
  already_present : bool;
  ok : bool
}.

(** What the handler acts on: both directions of the RPC stream and the
    file system below the agent's directory.  The [_fault] fields are the
    answers the transport and the operating system give to the calls the
    handler makes ([None]: the call succeeds). *)
Record world : Type := mkWorld {
  inbound : list (FileResourceRequest + error);
    (* answers of the coming [stream.Recv] calls; [io.EOF] after the last *)
  outbound : list FileResourceResponse;
    (* responses the transport accepted, oldest first *)
  send_fault : option error;
  made_dirs : list string;
    (* directories [os.MkdirAll] was asked for and made *)
  mkdir_fault : option error;
  files : gmap string bytes;
  read_fault : option error;
    (* an existing file that cannot be read *)
  open_fault : option error;
  write_faults : list (option (nat * error))
    (* per [f.Write]: [Some (n, e)] writes [n] bytes and fails with [e] *)
}.

Definition with_inbound (l : list (FileResourceRequest + error)) (w : world) :=
  mkWorld l (outbound w) (send_fault w) (made_dirs w) (mkdir_fault w)
          (files w) (read_fault w) (open_fault w) (write_faults w).
Definition with_outbound (l : list FileResourceResponse) (w : world) :=
  mkWorld (inbound w) l (send_fault w) (made_dirs w) (mkdir_fault w)
          (files w) (read_fault w) (open_fault w) (write_faults w).
Definition with_made_dirs (l : list string) (w : world) :=
  mkWorld (inbound w) (outbound w) (send_fault w) l (mkdir_fault w)
          (files w) (read_fault w) (open_fault w) (write_faults w).
Definition with_mkdir_fault (a : option error) (w : world) :=
  mkWorld (inbound w) (outbound w) (send_fault w) (made_dirs w) a
          (files w) (read_fault w) (open_fault w) (write_faults w).
Definition with_files (m : gmap string bytes) (w : world) :=
  mkWorld (inbound w) (outbound w) (send_fault w) (made_dirs w) (mkdir_fault w)
          m (read_fault w) (open_fault w) (write_faults w).
Definition with_write_faults (l : list (option (nat * error))) (w : world) :=
  mkWorld (inbound w) (outbound w) (send_fault w) (made_dirs w) (mkdir_fault w)
          (files w) (read_fault w) (open_fault w) l.

(** [stream.Recv()] *)
Definition Recv (w : world) : (FileResourceRequest + error) * world :=
  match inbound w with
  | [] => (inr io_EOF, w)
  | answer :: rest => (answer, with_inbound rest w)
  end.

(** [stream.Send(m)] *)
Definition Send (m : FileResourceResponse) (w : world) : option error * world :=
  match send_fault w with
  | Some e => (Some e, w)
  | None => (None, with_outbound (outbound w ++ [m]) w)
  end.

(** [os.MkdirAll(dir, 0755)] *)
Definition MkdirAll (dir : string) (w : world) : option error * world :=
  match mkdir_fault w with
  | Some e => (Some e, w)
  | None => (None, with_made_dirs (made_dirs w ++ [dir]) w)
  end.

(** [os.OpenFile(f, O_WRONLY|O_CREATE|O_TRUNC, 0755)]: the file exists
    and is empty afterwards. *)
Definition OpenFile (f : string) (w : world) : option error * world :=
  match open_fault w with
  | Some e => (Some e, w)
  | None => (None, with_files (<[f := []]> (files w)) w)
  end.

Definition append (f : string) (data : bytes) (m : gmap string bytes)
  : gmap string bytes :=
  <[f := default [] (m !! f) ++ data]> m.

(** [f.Write(data)] on the handle opened for [f] *)
Definition Write (f : string) (data : bytes) (w : world) : option error * world :=
  match write_faults w with
  | Some (n, e) :: rest =>
      (Some e, with_write_faults rest (with_files (append f (take n data) (files w)) w))
  | None :: rest =>
      (None, with_write_faults rest (with_files (append f data (files w)) w))
  | [] => (None, with_files (append f data (files w)) w)
  end.

Section handler.

(** [path.Join] and [filepath.Join] of the Go library. *)
Variable path_Join : list string -> string.
Variable filepath_Join : list string -> string.

(** The checksum inside [resource.GenerateFileHash]. *)
Variable checksum : bytes -> Z.

(** [*as.Option.Dir] *)
Variable Option_Dir : string.

(** Modelled from the spec: [resource.GenerateFileHash], which is not
    among the sources; "a content-hash function over on-disk files"
    that "computes the current on-disk hash if the file exists" and
    fails otherwise. *)
Definition GenerateFileHash (f : string) (w : world) : Z + error :=
  match files w !! f with
  | None => inr (Err "no such file or directory")
  | Some content =>
      match read_fault w with
      | Some e => inr e
      | None => inl (checksum content)
      end
  end.

(** Line 37. *)
Definition resolve_dir (request : FileResourceRequest) : string :=
  path_Join [Option_Dir; Sprintf_d (FlowHashCode request); Dir request].

(** Line 40. *)
Definition target (request : FileResourceRequest) : string :=
  filepath_Join [resolve_dir request; Name request].

(** Lines 59-72, over the answers [stream.Recv] still has to give. *)
Fixpoint receive_content (toFile : string)
    (coming : list (FileResourceRequest + error)) (w : world)
  : option error * world :=
  match coming with
  | [] => (None, with_inbound [] w)
  | inr e :: rest =>
      if is_EOF e then (None, with_inbound rest w)
      else (Some e, with_inbound rest w)
  | inl request :: rest =>
      match Write toFile (Content request) (with_inbound rest w) with
      | (Some e, w') => (Some e, w')
      | (None, w') => receive_content toFile rest w'
      end
  end.

(** Lines 28-73.  The handler runs under [receiveFileResourceLock], so
    one call sees no other upload; [f.Close()] is deferred and its
    result dropped. *)
Definition SendFileResource (w : world) : option error * world :=
  match Recv w with
  | (inr e, w1) => (Some e, w1)
  | (inl request, w1) =>
      let dir := resolve_dir request in
      let '(_, w2) := MkdirAll dir w1 in
      let toFile := target request in
      let hasSameHash :=
        match GenerateFileHash toFile w2 with
        | inl h => Z.eqb h (Hash request)
        | inr _ => false
        end in
      match Send (mkResponse hasSameHash true) w2 with
      | (Some e, w3) => (Some e, w3)
      | (None, w3) =>
          if hasSameHash then (None, w3)
          else
            match OpenFile toFile w3 with
            | (Some e, w4) => (Some e, w4)
            | (None, w4) => receive_content toFile (inbound w4) w4
            end
      end
  end.

(** The content messages at the head of the inbound stream. *)
Fixpoint leading_chunks (coming : list (FileResourceRequest + error))
  : list bytes :=
  match coming with
  | inl request :: rest => Content request :: leading_chunks rest
  | _ => []
  end.

(** How the inbound stream ends after them: nil at a half-close. *)
Fixpoint stream_end (coming : list (FileResourceRequest + error))
  : option error :=
  match coming with
  | inl _ :: rest => stream_end rest
  | inr e :: _ => if is_EOF e then None else Some e
  | [] => None
  end.

End handler.

End Upload.

(** ** The execution supervisor *)

Module Exec.

(** [pb.ExecutionResponse].  The two times are the [float64] seconds of a
    [time.Duration]; they are kept as the duration itself (nanoseconds). *)
Record ExecutionResponse : Type := mkResponse {
  Output : bytes;
  Error : bytes;
  SystemTime : Z;
  UserTime : Z
}.

(** [os.ProcessState], as far as [sendExitStats] reads it. *)
Record ProcessState : Type := mkUsage {
  system_time : Z;
  user_time : Z
}.

(** The goroutines of one [executeCommand] call. *)
Inductive goroutine : Type :=
| Supervisor   (* executeCommand itself *)
| StdoutPump   (* go streamOutput, line 132 *)
| StderrPump   (* go streamError, line 133 *)
| Pulse        (* go streamPulse, line 134 *)
| ExitWaiter.  (* go func, line 154 *)

#[global] Instance goroutine_eq_dec : EqDecision goroutine.
Proof. solve_decision. Defined.

Inductive pump : Type := Stdout | Stderr.

Definition pump_goroutine (p : pump) : goroutine :=
  match p with
  | Stdout => StdoutPump
  | Stderr => StderrPump
  end.

(** Where the supervisor stands in [executeCommand]. *)
Inductive sup_pc : Type :=
| AtStdinPipe | AtStdoutPipe | AtStderrPipe | AtStart   (* lines 108-130 *)
| AtMarshal | AtStdinWrite | AtStdinClose               (* lines 138-151 *)
| AtSelect                                              (* line 163 *)
| AtExitStats                                           (* line 169 *)
| AtKill | AtRelease                                    (* lines 172, 175 *)
| AtDeferredStop (result : option error)  (* [stopChan <- true], line 135 *)
| Returned (result : option error).

(** Where [streamOutput] or [streamError] stands. *)
Inductive pump_pc : Type :=
| PumpNotStarted
| Reading                    (* blocked in [Read] *)
| Sending (chunk : bytes)    (* about to [stream.Send] *)
| Reporting (e : error)      (* about to [errChan <- e] *)
| PumpReturned.

(** Where [streamPulse] stands. *)
Inductive pulse_pc : Type :=
| PulseNotStarted
| PulseWaiting                         (* in the select, line 249 *)
| PulseTicked                          (* about to [stream.Send], line 253 *)
| PulseReturned (result : option error).

(** Where the exit waiter stands. *)
Inductive waiter_pc : Type :=
| WaiterNotStarted
| InWait                               (* blocked in [command.Wait] *)
| WaiterReporting (waitErr : option error)   (* about to [errChan <- waitErr] *)
| WaiterReturned.

Inductive child_state : Type :=
| NoChild
| ChildRunning
| ChildExited (status : Z) (usage : ProcessState).

(** The write end of the child's stdin, held by the supervisor. *)
Inductive pipe_state : Type := NoPipe | PipeOpen | PipeClosed.

(** What the select at line 163 took. *)
Inductive selection : Type :=
| FromErrChan (sender : goroutine) (value : option error)
| FromDone.

Record state : Type := mkState {
  sup : sup_pc;
  stdout : pump_pc;
  stderr : pump_pc;
  pulse : pulse_pc;
  waiter : waiter_pc;
  errChan : list (goroutine * option error);
    (* the buffer of [errChan], oldest first, each value with its sender *)
  selected : option selection;
  ctx : option error;
    (* [ctx.Err()]: nil until the context is done *)
  child : child_state;
  cmd_ProcessState : option ProcessState;
  stdin : pipe_state;
  killed : bool;
  released : bool;
  stream : list (goroutine * ExecutionResponse);
    (* the responses the transport accepted, oldest first, each with the
       goroutine that sent it *)
  agent_stderr : bytes
    (* what the tee of [streamError] copied to the agent's own stderr *)
}.

Definition with_sup (x : sup_pc) (s : state) : state :=
  mkState x (stdout s) (stderr s) (pulse s) (waiter s) (errChan s)
    (selected s) (ctx s) (child s) (cmd_ProcessState s) (stdin s)
    (killed s) (released s) (stream s) (agent_stderr s).
Definition with_stdout (x : pump_pc) (s : state) : state :=
  mkState (sup s) x (stderr s) (pulse s) (waiter s) (errChan s)
    (selected s) (ctx s) (child s) (cmd_ProcessState s) (stdin s)
    (killed s) (released s) (stream s) (agent_stderr s).
Definition with_stderr (x : pump_pc) (s : state) : state :=
  mkState (sup s) (stdout s) x (pulse s) (waiter s) (errChan s)
    (selected s) (ctx s) (child s) (cmd_ProcessState s) (stdin s)
    (killed s) (released s) (stream s) (agent_stderr s).
Definition with_pulse (x : pulse_pc) (s : state) : state :=
  mkState (sup s) (stdout s) (stderr s) x (waiter s) (errChan s)
    (selected s) (ctx s) (child s) (cmd_ProcessState s) (stdin s)
    (killed s) (released s) (stream s) (agent_stderr s).
Definition with_waiter (x : waiter_pc) (s : state) : state :=
  mkState (sup s) (stdout s) (stderr s) (pulse s) x (errChan s)
    (selected s) (ctx s) (child s) (cmd_ProcessState s) (stdin s)
    (killed s) (released s) (stream s) (agent_stderr s).
Definition with_errChan (x : list (goroutine * option error)) (s : state) : state :=
  mkState (sup s) (stdout s) (stderr s) (pulse s) (waiter s) x
    (selected s) (ctx s) (child s) (cmd_ProcessState s) (stdin s)
    (killed s) (released s) (stream s) (agent_stderr s).
Definition with_selected (x : option selection) (s : state) : state :=
  mkState (sup s) (stdout s) (stderr s) (pulse s) (waiter s) (errChan s)
    x (ctx s) (child s) (cmd_ProcessState s) (stdin s)
    (killed s) (released s) (stream s) (agent_stderr s).
Definition with_ctx (x : option error) (s : state) : state :=
  mkState (sup s) (stdout s) (stderr s) (pulse s) (waiter s) (errChan s)
    (selected s) x (child s) (cmd_ProcessState s) (stdin s)
    (killed s) (released s) (stream s) (agent_stderr s).
Definition with_child (x : child_state) (s : state) : state :=
  mkState (sup s) (stdout s) (stderr s) (pulse s) (waiter s) (errChan s)
    (selected s) (ctx s) x (cmd_ProcessState s) (stdin s)
    (killed s) (released s) (stream s) (agent_stderr s).
Definition with_ProcessState (x : option ProcessState) (s : state) : state :=
  mkState (sup s) (stdout s) (stderr s) (pulse s) (waiter s) (errChan s)
    (selected s) (ctx s) (child s) x (stdin s)
    (killed s) (released s) (stream s) (agent_stderr s).
Definition with_stdin (x : pipe_state) (s : state) : state :=
  mkState (sup s) (stdout s) (stderr s) (pulse s) (waiter s) (errChan s)
    (selected s) (ctx s) (child s) (cmd_ProcessState s) x
    (killed s) (released s) (stream s) (agent_stderr s).
Definition with_killed (x : bool) (s : state) : state :=
  mkState (sup s) (stdout s) (stderr s) (pulse s) (waiter s) (errChan s)
    (selected s) (ctx s) (child s) (cmd_ProcessState s) (stdin s)
    x (released s) (stream s) (agent_stderr s).
Definition with_released (x : bool) (s : state) : state :=
  mkState (sup s) (stdout s) (stderr s) (pulse s) (waiter s) (errChan s)
    (selected s) (ctx s) (child s) (cmd_ProcessState s) (stdin s)
    (killed s) x (stream s) (agent_stderr s).
Definition with_stream (x : list (goroutine * ExecutionResponse)) (s : state) : state :=
  mkState (sup s) (stdout s) (stderr s) (pulse s) (waiter s) (errChan s)
    (selected s) (ctx s) (child s) (cmd_ProcessState s) (stdin s)
    (killed s) (released s) x (agent_stderr s).
Definition with_agent_stderr (x : bytes) (s : state) : state :=
  mkState (sup s) (stdout s) (stderr s) (pulse s) (waiter s) (errChan s)
    (selected s) (ctx s) (child s) (cmd_ProcessState s) (stdin s)
    (killed s) (released s) (stream s) x.

(** The state in which [executeCommand] is entered. *)
Definition init : state :=
  mkState AtStdinPipe PumpNotStarted PumpNotStarted PulseNotStarted
    WaiterNotStarted [] None None NoChild None NoPipe false false [] [].

(** The final message of a clean run, lines 262-265. *)
Definition exit_stats (u : ProcessState) : ExecutionResponse :=
  mkResponse [] [] (system_time u) (user_time u).

(** [&pb.ExecutionResponse{}], line 253. *)
Definition keepalive : ExecutionResponse := mkResponse [] [] 0 0.

(** Lines 209-211 and 236-238. *)
Definition chunk_message (p : pump) (data : bytes) : ExecutionResponse :=
  match p with
  | Stdout => mkResponse data [] 0 0
  | Stderr => mkResponse [] data 0 0
  end.

(** The [*exec.ExitError] that [command.Wait] returns for a child that
    did not exit with status 0. *)
Definition ExitError (status : Z) : error :=
  Err ("exit status " +:+ Sprintf_d status).

Definition read_failure (p : pump) (e : error) : error :=
  match p with
  | Stdout => Errorf "Failed to read stdout: %v" e
  | Stderr => Errorf "Failed to read stderr: %v" e
  end.

Definition send_failure (p : pump) (e : error) : error :=
  match p with
  | Stdout => Errorf "Failed to send stdout: %v" e
  | Stderr => Errorf "Failed to send stderr: %v" e
  end.

Definition pump_at (p : pump) (s : state) : pump_pc :=
  match p with
  | Stdout => stdout s
  | Stderr => stderr s
  end.

Definition with_pump (p : pump) (x : pump_pc) (s : state) : state :=
  match p with
  | Stdout => with_stdout x s
  | Stderr => with_stderr x s
  end.

(** [errChan <- v] by goroutine [g]; the channel holds three values
    (line 97) and a fourth send would block. *)
Definition push (g : goroutine) (v : option error) (s : state) : option state :=
  if decide (length (errChan s) < 3)
  then Some (with_errChan (errChan s ++ [(g, v)]) s)
  else None.

(** [stream.Send(m)] by goroutine [g], accepted by the transport. *)
Definition sent (g : goroutine) (m : ExecutionResponse) (s : state) : state :=
  with_stream (stream s ++ [(g, m)]) s.

(** One scheduling decision: the goroutine that takes its next step, with
    the answer of the callee where the step is a call that can fail, or
    an event of the environment. *)
Inductive action : Type :=
| Sup (answer : option error)
    (* the supervisor's next call returns [answer] *)
| SupRecv      (* the select takes [err = <-errChan] *)
| SupDone      (* the select takes [<-ctx.Done()] *)
| SupStop      (* the deferred [stopChan <- true] meets the pulse's receive *)
| PumpRead (p : pump) (data : bytes) (answer : option error)
    (* [Read] returns [len(data), answer] *)
| PumpSend (p : pump) (answer : option error)
| PumpReport (p : pump)
| Tick         (* the pulse's select takes [<-tickChan] *)
| PulseSend (answer : option error)
| WaitReturns  (* [command.Wait] returns for an exited child *)
| WaitReport
| ChildExits (status : Z) (usage : ProcessState)
| CtxDone (reason : error).

(** Lines 108-151 and 169-178: the calls of the supervisor. *)
Definition sup_step (answer : option error) (s : state) : option state :=
  match sup s, answer with
  | AtStdinPipe, None => Some (with_sup AtStdoutPipe (with_stdin PipeOpen s))
  | AtStdoutPipe, None => Some (with_sup AtStderrPipe s)
  | AtStderrPipe, None => Some (with_sup AtStart s)
  | AtStart, None =>
      (* the child runs; lines 132-135 start the pumps and the pulse and
         defer the stop *)
      Some (with_sup AtMarshal
             (with_pulse PulseWaiting
               (with_stderr Reading
                 (with_stdout Reading
                   (with_child ChildRunning s)))))
  | (AtStdinPipe | AtStdoutPipe | AtStderrPipe | AtStart), Some e =>
      Some (with_sup (Returned (Some e)) s)
  | AtMarshal, None => Some (with_sup AtStdinWrite s)
  | AtStdinWrite, None => Some (with_sup AtStdinClose s)
  | AtStdinClose, None =>
      (* line 154 starts the exit waiter *)
      Some (with_sup AtSelect (with_waiter InWait (with_stdin PipeClosed s)))
  | (AtMarshal | AtStdinWrite | AtStdinClose), Some e =>
      Some (with_sup (AtDeferredStop (Some e)) s)
  | AtExitStats, _ =>
      match cmd_ProcessState s, answer with
      | None, _ => Some (with_sup (AtDeferredStop None) s)
      | Some u, None =>
          Some (with_sup (AtDeferredStop None) (sent Supervisor (exit_stats u) s))
      | Some u, Some e =>
          Some (with_sup
                  (AtDeferredStop
                     (Some (Errorf "Failed to send exit stats response: %v\n" e)))
                  s)
      end
  | AtKill, _ =>
      (* the answer of [Process.Kill] is logged only *)
      Some (with_sup AtRelease (with_killed true s))
  | AtRelease, _ =>
      (* the answer of [Process.Release] is logged only; [return ctx.Err()] *)
      Some (with_sup (AtDeferredStop (ctx s)) (with_released true s))
  | (AtSelect | AtDeferredStop _ | Returned _), _ => None
  end.

(** Lines 163-170: the two cases of the select.  When both can proceed
    the Go runtime picks either. *)
Definition select_errChan (s : state) : option state :=
  match sup s, errChan s with
  | AtSelect, (g, v) :: rest =>
      Some (with_sup (match v with
                      | Some e => AtDeferredStop (Some e)
                      | None => AtExitStats
                      end)
             (with_selected (Some (FromErrChan g v)) (with_errChan rest s)))
  | _, _ => None
  end.

Definition select_Done (s : state) : option state :=
  match sup s, ctx s with
  | AtSelect, Some _ => Some (with_sup AtKill (with_selected (Some FromDone) s))
  | _, _ => None
  end.

(** Line 135 against line 250: [stopChan] has no buffer, so the deferred
    send completes only together with the receive in the pulse's select. *)
Definition stop (s : state) : option state :=
  match sup s, pulse s with
  | AtDeferredStop result, PulseWaiting =>
      Some (with_sup (Returned result) (with_pulse (PulseReturned None) s))
  | _, _ => None
  end.

(** Lines 196-207 and 223-234: one [Read] into the 1024-byte buffer.
    The stderr pump reads through a tee that copies what was read to the
    agent's own stderr. *)
Definition pump_read (p : pump) (data : bytes) (answer : option error)
    (s : state) : option state :=
  match pump_at p s with
  | Reading =>
      if decide (length data <= 1024) then
        let s1 := match p with
                  | Stdout => s
                  | Stderr => with_agent_stderr (agent_stderr s ++ data) s
                  end in
        Some (match answer with
              | Some e =>
                  if is_EOF e then with_pump p PumpReturned s1
                  else with_pump p (Reporting (read_failure p e)) s1
              | None =>
                  match data with
                  | [] => s1
                  | _ :: _ => with_pump p (Sending data) s1
                  end
              end)
      else None
  | _ => None
  end.

(** Lines 209-214 and 236-241. *)
Definition pump_send (p : pump) (answer : option error) (s : state)
  : option state :=
  match pump_at p s with
  | Sending data =>
      Some (match answer with
            | None => with_pump p Reading
                        (sent (pump_goroutine p) (chunk_message p data) s)
            | Some e => with_pump p (Reporting (send_failure p e)) s
            end)
  | _ => None
  end.

(** Lines 202, 212, 229 and 239. *)
Definition pump_report (p : pump) (s : state) : option state :=
  match pump_at p s with
  | Reporting e =>
      with_pump p PumpReturned <$> push (pump_goroutine p) (Some e) s
  | _ => None
  end.

(** Lines 249-256. *)
Definition tick (s : state) : option state :=
  match pulse s with
  | PulseWaiting => Some (with_pulse PulseTicked s)
  | _ => None
  end.

Definition pulse_send (answer : option error) (s : state) : option state :=
  match pulse s with
  | PulseTicked =>
      Some (match answer with
            | None => with_pulse PulseWaiting (sent Pulse keepalive s)
            | Some e =>
                with_pulse
                  (PulseReturned
                     (Some (Errorf "Failed to send empty response: %v\n" e)))
                  s
            end)
  | _ => None
  end.

(** Lines 155-160.  [Wait] returns once the child has exited, stores its
    [ProcessState] in the command and yields nil for status 0. *)
Definition wait_returns (s : state) : option state :=
  match waiter s, child s with
  | InWait, ChildExited status usage =>
      Some (with_waiter
              (WaiterReporting
                 (if Z.eqb status 0 then None else Some (ExitError status)))
              (with_ProcessState (Some usage) s))
  | _, _ => None
  end.

Definition wait_report (s : state) : option state :=
  match waiter s with
  | WaiterReporting waitErr =>
      with_waiter WaiterReturned <$> push ExitWaiter waitErr s
  | _ => None
  end.

(** The environment: the child exits, the RPC context becomes done. *)
Definition child_exits (status : Z) (usage : ProcessState) (s : state)
  : option state :=
  match child s with
  | ChildRunning => Some (with_child (ChildExited status usage) s)
  | _ => None
  end.

Definition ctx_done (reason : error) (s : state) : option state :=
  match ctx s with
  | None => Some (with_ctx (Some reason) s)
  | Some _ => None
  end.

(** One step of the call; [None] when the step cannot be taken in [s]. *)
Definition step (s : state) (a : action) : option state :=
  match a with
  | Sup answer => sup_step answer s
  | SupRecv => select_errChan s
  | SupDone => select_Done s
  | SupStop => stop s
  | PumpRead p data answer => pump_read p data answer s
  | PumpSend p answer => pump_send p answer s
  | PumpReport p => pump_report p s
  | Tick => tick s
  | PulseSend answer => pulse_send answer s
  | WaitReturns => wait_returns s
  | WaitReport => wait_report s
  | ChildExits status usage => child_exits status usage s
  | CtxDone reason => ctx_done reason s
  end.

(** A schedule, run from [s]. *)
Fixpoint run (s : state) (schedule : list action) : option state :=
  match schedule with
  | [] => Some s
  | a :: rest =>
      match step s a with
      | Some s' => run s' rest
      | None => None
      end
  end.

(** The messages of a stream that goroutine [g] sent. *)
Definition sent_by (g : goroutine)
    (l : list (goroutine * ExecutionResponse)) : list ExecutionResponse :=
  snd <$> filter (fun m => fst m = g) l.

End Exec.

(** ** Execute and the allocation ledger *)

Module Agent.

(** A signed integer of [bits] bits: Go arithmetic wraps around. *)
Definition wrap (bits : Z) (x : Z) : Z :=
  ((x + 2 ^ (bits - 1)) mod 2 ^ bits - 2 ^ (bits - 1))%Z.

Definition in_range (bits : Z) (x : Z) : Prop :=
  (- 2 ^ (bits - 1) <= x < 2 ^ (bits - 1))%Z.

(** [pb.ComputeResource]: CPU cores, memory in MB, GPU units. *)
Record ComputeResource : Type := mkResource {
  CpuCount : Z;   (* int32 *)
  MemoryMb : Z;   (* int64 *)
  GpuCount : Z    (* int32 *)
}.

Definition valid (r : ComputeResource) : Prop :=
  in_range 32 (CpuCount r) /\ in_range 64 (MemoryMb r) /\
  in_range 32 (GpuCount r).

(** Modelled from the spec: the [Plus] and [Minus] methods of
    [pb.ComputeResource], which are not among the sources; they "perform
    elementwise addition/subtraction on (CPU, memory-MB, GPU)". *)
Definition Plus (a b : ComputeResource) : ComputeResource :=
  mkResource (wrap 32 (CpuCount a + CpuCount b))
             (wrap 64 (MemoryMb a + MemoryMb b))
             (wrap 32 (GpuCount a + GpuCount b)).

Definition Minus (a b : ComputeResource) : ComputeResource :=
  mkResource (wrap 32 (CpuCount a - CpuCount b))
             (wrap 64 (MemoryMb a - MemoryMb b))
             (wrap 32 (GpuCount a - GpuCount b)).

(** [pb.ExecutionRequest], as far as [Execute] reads it.  [Resource] is a
    pointer in the message and may be nil. *)
Record ExecutionRequest : Type := mkExecutionRequest {
  Name : string;
  Dir : string;
  FlowHashCode : Z;   (* [GetInstructions().GetFlowHashCode()] *)
  Resource : option ComputeResource
}.

(** Where one [Execute] call stands. *)
Inductive exec_pc : Type :=
| AtMkdirAll                            (* lines 78-79 *)
| AtAdmission                           (* lines 81-84 *)
| InCommand (allocated : ComputeResource)   (* line 86 *)
| Left (result : option error)          (* returned, deferred minus done *)
| Panicked.                             (* nil dereference at line 81 *)

Record call : Type := mkCall {
  request : ExecutionRequest;
  at_pc : exec_pc;
  command : Exec.state
}.

Inductive ledger_op : Type :=
| plus (allocated : ComputeResource)
| minus (allocated : ComputeResource).

(** The agent: the ledger [*as.allocatedResource], the [Execute] calls
    in flight, and the adjustments made to the ledger so far, each with
    the index of the call that made it (oldest first). *)
Record agent : Type := mkAgent {
  allocatedResource : ComputeResource;
  calls : list call;
  adjustments : list (nat * ledger_op)
}.

(** A step of one [Execute] call. *)
Inductive move : Type :=
| DoMkdirAll (answer : option error)   (* [os.MkdirAll] returns [answer] *)
| Admit                                (* lines 81-84 *)
| InsideCommand (a : Exec.action)      (* a step of [executeCommand] *)
| Leave.                               (* return through the deferred minus *)

(** Lines 272-282: each adjustment is one step, taken under
    [allocatedResourceLock]. *)
Definition plusAllocated (i : nat) (allocated : ComputeResource) (ag : agent)
  : agent :=
  mkAgent (Plus (allocatedResource ag) allocated) (calls ag)
          (adjustments ag ++ [(i, plus allocated)]).

Definition minusAllocated (i : nat) (allocated : ComputeResource) (ag : agent)
  : agent :=
  mkAgent (Minus (allocatedResource ag) allocated) (calls ag)
          (adjustments ag ++ [(i, minus allocated)]).

Definition with_call (i : nat) (c : call) (ag : agent) : agent :=
  mkAgent (allocatedResource ag) (<[i := c]> (calls ag)) (adjustments ag).

(** Lines 76-88, for the call with index [i]. *)
Definition Execute (i : nat) (m : move) (ag : agent) : option agent :=
  match calls ag !! i with
  | None => None
  | Some c =>
      match at_pc c, m with
      | AtMkdirAll, DoMkdirAll _ =>
          (* the result of [os.MkdirAll] is dropped *)
          Some (with_call i (mkCall (request c) AtAdmission (command c)) ag)
      | AtAdmission, Admit =>
          match Resource (request c) with
          | None =>
              Some (with_call i (mkCall (request c) Panicked (command c)) ag)
          | Some allocated =>
              Some (with_call i
                      (mkCall (request c) (InCommand allocated) Exec.init)
                      (plusAllocated i allocated ag))
          end
      | InCommand allocated, InsideCommand a =>
          match Exec.step (command c) a with
          | Some s' =>
              Some (with_call i (mkCall (request c) (InCommand allocated) s') ag)
          | None => None
          end
      | InCommand allocated, Leave =>
          match Exec.sup (command c) with
          | Exec.Returned result =>
              Some (with_call i (mkCall (request c) (Left result) (command c))
                      (minusAllocated i allocated ag))
          | _ => None
          end
      | _, _ => None
      end
  end.

(** An interleaving of calls: each element names the call that moves. *)
Fixpoint serve (ag : agent) (schedule : list (nat * move)) : option agent :=
  match schedule with
  | [] => Some ag
  | (i, m) :: rest =>
      match Execute i m ag with
      | Some ag' => serve ag' rest
      | None => None
      end
  end.

(** The agent when the calls for [requests] arrive with ledger [ledger]. *)
Definition arrive (ledger : ComputeResource) (requests : list ExecutionRequest)
  : agent :=
  mkAgent ledger ((fun r => mkCall r AtMkdirAll Exec.init) <$> requests) [].

(** A call is over when [Execute] has returned or panicked. *)
Definition over (c : call) : Prop :=
  match at_pc c with
  | Left _ | Panicked => True
  | _ => False
  end.

(** The adjustments call [i] made, in order. *)
Definition adjustments_of (i : nat) (ag : agent) : list ledger_op :=
  snd <$> filter (fun x => fst x = i) (adjustments ag).

(** What a call holds of the ledger while it stands at its program
    point. *)
Definition held (c : call) : ComputeResource :=
  match at_pc c with
  | InCommand allocated => allocated
  | _ => mkResource 0 0 0
  end.

(** The adjustments a call has made by the time it stands at its program
    point: a plus on admission, the matching minus on the way out. *)
Definition expected (c : call) : list ledger_op :=
  match at_pc c, Resource (request c) with
  | InCommand allocated, _ => [plus allocated]
  | Left _, Some allocated => [plus allocated; minus allocated]
  | _, _ => []
  end.

End Agent.

(** * Theorems *)

Section Exec_facts.
Import Exec.

Lemma run_app s sched1 sched2 :
  run s (sched1 ++ sched2) = run s sched1 ≫= fun s' => run s' sched2.
Proof.
  revert s. induction sched1 as [|a sched1 IH]; intros s; simpl; [done|].
  destruct (step s a); simpl; auto.
Qed.

(** Induction over the states a call can reach. *)
Lemma run_invariant (P : state -> Prop) :
  P init ->
  (forall s a s', P s -> step s a = Some s' -> P s') ->
  forall schedule s, run init schedule = Some s -> P s.
Proof.
  intros Hinit Hstep schedule. generalize init Hinit.
  induction schedule as [|a rest IH]; intros s0 H0 s Hrun; simpl in Hrun.
  - by simplify_eq.
  - destruct (step s0 a) as [s1|] eqn:Hs; [|done]. eauto.
Qed.

Lemma sent_by_snoc g g' m l :
  sent_by g (l ++ [(g', m)]) =
  sent_by g l ++ (if decide (g' = g) then [m] else []).
Proof.
  unfold sent_by. rewrite filter_app, fmap_app. f_equal.
  rewrite filter_cons, filter_nil; simpl. by destruct (decide (g' = g)).
Qed.

(** What a value on [errChan] says about its sender. *)
Definition reported (c : child_state) (g : goroutine) (v : option error) : Prop :=
  match g with
  | StdoutPump | StderrPump => is_Some v
  | ExitWaiter =>
      exists status usage,
        c = ChildExited status usage /\
        v = if Z.eqb status 0 then None else Some (ExitError status)
  | Supervisor | Pulse => False
  end.

(** How a result the supervisor is about to return came about. *)
Definition outcome (result : option error) (s : state) : Prop :=
  match selected s with
  | None =>
      is_Some result /\ sent_by Supervisor (stream s) = [] /\
      killed s = false /\ released s = false
  | Some FromDone =>
      result = ctx s /\ is_Some (ctx s) /\
      sent_by Supervisor (stream s) = [] /\
      killed s = true /\ released s = true
  | Some (FromErrChan _ (Some e)) =>
      result = Some e /\ sent_by Supervisor (stream s) = [] /\
      killed s = false /\ released s = false
  | Some (FromErrChan _ None) =>
      killed s = false /\ released s = false /\
      ((result = None /\
        exists usage, sent_by Supervisor (stream s) = [exit_stats usage]) \/
       (sent_by Supervisor (stream s) = [] /\
        (result = None \/ exists e, result =
           Some (Errorf "Failed to send exit stats response: %v\n" e))))
  end.

Definition quiet (s : state) : Prop :=
  sent_by Supervisor (stream s) = [] /\ killed s = false /\ released s = false.

Definition pulse_running (s : state) : Prop :=
  pulse s <> PulseNotStarted /\ pulse s <> PulseReturned None.

Definition supervisor_consistent (s : state) : Prop :=
  match sup s with
  | AtStdinPipe | AtStdoutPipe | AtStderrPipe | AtStart =>
      selected s = None /\ quiet s /\ pulse s = PulseNotStarted /\
      waiter s = WaiterNotStarted /\ errChan s = [] /\
      stdout s = PumpNotStarted /\ stderr s = PumpNotStarted /\
      stdin s <> PipeClosed
  | AtMarshal | AtStdinWrite | AtStdinClose =>
      selected s = None /\ quiet s /\ pulse_running s /\
      waiter s = WaiterNotStarted /\ stdin s <> PipeClosed
  | AtSelect =>
      selected s = None /\ quiet s /\ pulse_running s
  | AtExitStats =>
      (exists g, selected s = Some (FromErrChan g None)) /\ quiet s /\
      pulse_running s
  | AtKill =>
      selected s = Some FromDone /\ is_Some (ctx s) /\ quiet s /\
      pulse_running s
  | AtRelease =>
      selected s = Some FromDone /\ is_Some (ctx s) /\
      sent_by Supervisor (stream s) = [] /\
      killed s = true /\ released s = false /\ pulse_running s
  | AtDeferredStop result =>
      outcome result s /\ pulse_running s
  | Returned result =>
      outcome result s /\
      (pulse s = PulseNotStarted \/ pulse s = PulseReturned None)
  end.

Ltac unfold_step :=
  unfold step, sup_step, select_errChan, select_Done, stop, pump_read,
    pump_send, pump_report, tick, pulse_send, wait_returns, wait_report,
    child_exits, ctx_done, push, pump_at in *.

Ltac fields :=
  cbn [sup stdout stderr pulse waiter errChan selected ctx child
       cmd_ProcessState stdin killed released stream agent_stderr
       with_sup with_stdout with_stderr with_pulse with_waiter with_errChan
       with_selected with_ctx with_child with_ProcessState with_stdin
       with_killed with_released with_stream with_agent_stderr with_pump
       sent pump_goroutine] in *.

Ltac invert_step H :=
  repeat match type of H with
    | context [match ?x with _ => _ end] =>
        let E := fresh "E" in destruct x eqn:E; try discriminate H
    | context [decide ?P] => destruct (decide P); try discriminate H
    | _ <$> _ = Some _ =>
        let y := fresh "y" in
        let Hy := fresh "Hy" in
        let Hz := fresh "Hz" in
        apply fmap_Some in H as (y & Hy & Hz);
        try discriminate Hy
    end;
  simplify_eq; fields.

Ltac by_sup :=
  match goal with
  | |- context [match sup ?x with _ => _ end] => destruct (sup x)
  end.

Ltac close_case :=
  unfold outcome, quiet, pulse_running, is_Some in *; fields;
  rewrite ?sent_by_snoc, ?app_nil_r in *;
  repeat match goal with
    | |- context [match selected ?x with _ => _ end] =>
        destruct (selected x) as [[? [?|]|]|]
    end;
  repeat match goal with
    | H : ctx _ = _ |- _ => rewrite H in *
    | H : _ /\ _ |- _ => destruct H
    | H : exists _, _ |- _ => destruct H
    | H : selected _ = _ |- _ => rewrite H in *
    | H : pulse _ = _ |- _ => rewrite H in *
    | H : sent_by ?g ?l = _ |- context [sent_by ?g ?l] => rewrite H
    end;
  simpl in *;
  try solve [intuition (try congruence; eauto)].

Lemma supervisor_consistent_step s a s' :
  supervisor_consistent s -> step s a = Some s' -> supervisor_consistent s'.
Proof.
  intros Hinv Hstep. unfold supervisor_consistent in *.
  destruct a as [answer| | | |p data answer|p answer|p| |answer| | |status usage|reason];
    try destruct p; unfold_step.
  all: try (invert_step Hstep; close_case; fail).
  all: invert_step Hstep; by_sup; close_case.
Qed.


Definition channel_consistent (s : state) : Prop :=
  Forall (fun x => reported (child s) (fst x) (snd x)) (errChan s) /\
  (forall g v, selected s = Some (FromErrChan g v) -> reported (child s) g v) /\
  (forall v, waiter s = WaiterReporting v -> reported (child s) ExitWaiter v).

Lemma reported_child_running g v c :
  reported ChildRunning g v -> reported c g v.
Proof. destruct g; simpl; try done. by intros (? & ? & ? & _). Qed.

Lemma channel_consistent_step s a s' :
  supervisor_consistent s -> channel_consistent s ->
  step s a = Some s' -> channel_consistent s'.
Proof.
  intros Hsup (Hchan & Hsel & Hwait) Hstep.
  unfold channel_consistent, supervisor_consistent in *.
  destruct a as [answer| | | |p data answer|p answer|p| |answer| | |status usage|reason];
    try destruct p; unfold_step; invert_step Hstep;
    try (split_and!; first [assumption | congruence]).
  all: repeat match goal with
         | H : ?f ?x = _ |- context [?f ?x] => rewrite H
         end.
  all: try rewrite Forall_app, Forall_singleton; simpl.
  all: try (split_and!; first [assumption | congruence | by eauto]).
  - (* Start: nothing has been reported yet *)
    destruct Hsup as (Hs & _ & _ & Hw & Hc & _). rewrite Hs, Hw, Hc.
    by split_and!.
  - (* the select takes an error *)
    apply Forall_cons in Hchan as [Hhd Htl].
    split_and!; [done| by intros ?? [= <- <-] |done].
  - (* the select takes nil *)
    apply Forall_cons in Hchan as [Hhd Htl].
    split_and!; [done| by intros ?? [= <- <-] |done].
  - (* Wait returns nil *)
    split_and!; try done. intros v [= <-]. do 2 eexists. split; [done|].
    by match goal with H : (_ =? _)%Z = _ |- _ => rewrite H end.
  - (* Wait returns an exit error *)
    split_and!; try done. intros v [= <-]. do 2 eexists. split; [done|].
    by match goal with H : (_ =? _)%Z = _ |- _ => rewrite H end.
  - (* the waiter reports *)
    split_and!; try done. by apply Hwait.
  - (* the child exits *)
    split_and!.
    + eapply Forall_impl; [exact Hchan|]. intros [g v]; simpl.
      apply reported_child_running.
    + intros g v Hg. by apply reported_child_running, Hsel.
    + intros v Hv. by destruct (Hwait v Hv) as (? & ? & ? & _).
Qed.

Definition consistent (s : state) : Prop :=
  supervisor_consistent s /\ channel_consistent s.

Lemma consistent_init : consistent init.
Proof.
  split; [|split_and!]; simpl; [|constructor|done..].
  unfold supervisor_consistent, quiet; simpl. by split_and!.
Qed.

Lemma reachable_consistent schedule s :
  run init schedule = Some s -> consistent s.
Proof.
  apply run_invariant; [apply consistent_init|].
  intros s0 a s1 [Hsup Hchan] Hstep. split.
  - by eapply supervisor_consistent_step.
  - by eapply channel_consistent_step.
Qed.

Lemma sent_by_nil g l :
  sent_by g l = [] <-> Forall (fun x => fst x <> g) l.
Proof.
  unfold sent_by. induction l as [|[g' m] l IH]; simpl.
  - split; [constructor|done].
  - rewrite filter_cons; simpl. destruct (decide (g' = g)) as [->|Hne]; simpl.
    + split; [done|]. intros H. by apply Forall_cons in H as [? _].
    + rewrite IH. split; [by constructor|]. intros H.
      by apply Forall_cons in H as [_ ?].
Qed.

Lemma sent_by_app g l1 l2 :
  sent_by g (l1 ++ l2) = sent_by g l1 ++ sent_by g l2.
Proof. unfold sent_by. by rewrite filter_app, fmap_app. Qed.

(** The supervisor sends at most one message, the exit statistics, and
    only after the select has taken a nil from [errChan]. *)
Lemma supervisor_sends s :
  supervisor_consistent s ->
  sent_by Supervisor (stream s) = [] \/
  exists usage g,
    sent_by Supervisor (stream s) = [exit_stats usage] /\
    selected s = Some (FromErrChan g None).
Proof.
  unfold supervisor_consistent, outcome, quiet.
  destruct (sup s); try (intros H; left; tauto);
    (destruct (selected s) as [[g [e|]|]|]; [tauto|..|tauto|tauto]);
    intros [(_ & _ & [[_ [usage Hu]]|[H _]]) _]; eauto.
Qed.

(** A nil on [errChan] comes from the exit waiter, for a child that
    exited with status 0. *)
Lemma reported_nil c g :
  reported c g None -> g = ExitWaiter /\ exists usage, c = ChildExited 0 usage.
Proof.
  destruct g; simpl; try done; try by intros [? ?].
  intros (status & usage & -> & Hv). split; [done|].
  destruct (Z.eqb_spec status 0) as [->|]; [eauto|done].
Qed.

(** *** Schedules used below *)

(** Pipes, start, marshal, write and close all succeed: the supervisor
    stands at the select with the child running. *)
Definition handoff : list action :=
  [Sup None; Sup None; Sup None; Sup None; Sup None; Sup None; Sup None].

Definition usage0 : ProcessState := mkUsage 3000000 12000000.

(** Both pumps see the end of their pipe. *)
Definition drained : list action :=
  [PumpRead Stdout [] (Some io_EOF); PumpRead Stderr [] (Some io_EOF)].

(** C9.  In every state a call can reach: a keepalive that the transport
    refuses makes [streamPulse] return its error and changes neither
    [errChan] nor the supervisor; every value in [errChan], and the
    value the select took from it, was sent by the stdout pump, the
    stderr pump or the exit waiter; an error the select took is the
    result the call returns; and no call returns once its keepalive task
    has returned an error, the deferred stop having no receiver left. *)
Theorem keepalive_failure_is_not_reported (schedule : list action) (s : state) :
  run init schedule = Some s ->
  (forall e s',
     step s (PulseSend (Some e)) = Some s' ->
     pulse s' =
       PulseReturned (Some (Errorf "Failed to send empty response: %v\n" e)) /\
     errChan s' = errChan s /\ sup s' = sup s /\ selected s' = selected s) /\
  Forall (fun x => fst x = StdoutPump \/ fst x = StderrPump \/ fst x = ExitWaiter)
         (errChan s) /\
  (forall g v,
     selected s = Some (FromErrChan g v) ->
     g = StdoutPump \/ g = StderrPump \/ g = ExitWaiter) /\
  (forall g e result,
     selected s = Some (FromErrChan g (Some e)) ->
     sup s = Returned result -> result = Some e) /\
  (forall e result, pulse s = PulseReturned (Some e) -> sup s <> Returned result).
Proof.
  intros Hrun. destruct (reachable_consistent _ _ Hrun) as [Hsup (Hchan & Hsel & _)].
  assert (Hsender : forall c g v, reported c g v ->
            g = StdoutPump \/ g = StderrPump \/ g = ExitWaiter).
  { intros c [] v; simpl; tauto. }
  split_and!.
  - intros e s' Hstep. unfold step, pulse_send in Hstep.
    destruct (pulse s); simplify_eq. by split_and!.
  - eapply Forall_impl; [exact Hchan|]. intros [g v]; simpl. apply Hsender.
  - intros g v Hg. eapply Hsender, Hsel, Hg.
  - intros g e result Hg Hret. unfold supervisor_consistent in Hsup.
    rewrite Hret in Hsup. unfold outcome in Hsup. rewrite Hg in Hsup.
    by destruct Hsup as [[-> _] _].
  - intros e result Hp Hret. unfold supervisor_consistent in Hsup.
    rewrite Hret, Hp in Hsup. by destruct Hsup as [_ [?|?]].
Qed.

(** A run in which the transport refuses the first keepalive. *)
Definition refused_keepalive : list action :=
  handoff ++ [Tick; PulseSend (Some (Err "transport is closing"))].

Definition after_refused_keepalive : state :=
  Eval vm_compute in default init (run init refused_keepalive).

Lemma run_refused_keepalive :
  run init refused_keepalive = Some after_refused_keepalive.
Proof. vm_compute. reflexivity. Qed.

Lemma keepalive_failure_is_not_reported_witness :
  run init refused_keepalive = Some after_refused_keepalive /\
  errChan after_refused_keepalive = [] /\
  sup after_refused_keepalive = AtSelect /\
  forall result, sup after_refused_keepalive <> Returned result.
Proof.
  split; [exact run_refused_keepalive|]. split; [reflexivity|].
  split; [reflexivity|].
  destruct (keepalive_failure_is_not_reported
              refused_keepalive after_refused_keepalive run_refused_keepalive)
    as (_ & _ & _ & _ & H).
  intros result. eapply H. reflexivity.
Defined.

(** C2 as stated: whatever the supervisor sends is the last message of
    the stream. *)
Definition exit_stats_always_last : Prop :=
  forall schedule s before after m,
    run init schedule = Some s ->
    stream s = before ++ (Supervisor, m) :: after ->
    after = [].

(** A clean run in which the ticker fires between [sendExitStats] and the
    deferred stop: the keepalive follows the exit statistics. *)
Definition late_tick : list action :=
  handoff ++ drained ++
  [ChildExits 0 usage0; WaitReturns; WaitReport; SupRecv; Sup None;
   Tick; PulseSend None; SupStop].

Definition after_late_tick : state :=
  Eval vm_compute in default init (run init late_tick).

Lemma run_late_tick : run init late_tick = Some after_late_tick.
Proof. vm_compute. reflexivity. Qed.

Lemma keepalive_follows_exit_stats : ~ exit_stats_always_last.
Proof.
  intros Hlast.
  pose proof (Hlast late_tick after_late_tick
                [] [(Pulse, keepalive)] (exit_stats usage0)
                run_late_tick eq_refl) as H.
  discriminate H.
Qed.

(** C2, amended.  A message of the supervisor on the stream is the exit
    statistics; it was sent after the select took the nil that the exit
    waiter reports for a child that exited with status 0; the supervisor
    sends nothing before or after it; and once the call has returned, no
    step adds a keepalive or a message of the supervisor to the stream.
    Messages of the pumps and, until the stop is taken, keepalives can
    follow the exit statistics. *)
Theorem exit_stats_last_of_supervisor (schedule : list action) (s : state) :
  run init schedule = Some s ->
  (forall before after m,
     stream s = before ++ (Supervisor, m) :: after ->
     (exists usage, m = exit_stats usage) /\
     selected s = Some (FromErrChan ExitWaiter None) /\
     (exists usage, child s = ChildExited 0 usage) /\
     Forall (fun x => fst x <> Supervisor) before /\
     Forall (fun x => fst x <> Supervisor) after) /\
  (forall result a s',
     sup s = Returned result ->
     step s a = Some s' ->
     sent_by Pulse (stream s') = sent_by Pulse (stream s) /\
     sent_by Supervisor (stream s') = sent_by Supervisor (stream s)).
Proof.
  intros Hrun. destruct (reachable_consistent _ _ Hrun) as [Hsup (_ & Hsel & _)].
  split.
  - intros before after m Hstream.
    destruct (supervisor_sends s Hsup) as [Hnone|(usage & g & Hone & Hg)];
      rewrite Hstream, sent_by_app in *.
    + replace ((Supervisor, m) :: after) with ([(Supervisor, m)] ++ after)
        in Hnone by done.
      rewrite sent_by_app in Hnone. by destruct (sent_by Supervisor before).
    + replace ((Supervisor, m) :: after) with ([(Supervisor, m)] ++ after)
        in Hone by done.
      rewrite sent_by_app in Hone. change (sent_by Supervisor [(Supervisor, m)])
        with [m] in Hone.
      destruct (sent_by Supervisor before) as [|m' ms] eqn:Hb; simpl in Hone.
      * injection Hone as -> Ha. apply sent_by_nil in Hb, Ha.
        destruct (reported_nil _ _ (Hsel _ _ Hg)) as [-> Hchild].
        split_and!; eauto.
      * injection Hone as _ Habs. by destruct ms.
  - intros result a s' Hret Hstep. unfold supervisor_consistent in Hsup.
    rewrite Hret in Hsup. destruct Hsup as [_ Hpulse].
    destruct a as [answer| | | |p data answer|p answer|p| |answer| | |status usage|reason];
      try destruct p; unfold_step; invert_step Hstep;
      rewrite ?sent_by_snoc; simpl; rewrite ?app_nil_r; try done;
      destruct Hpulse; congruence.
Qed.

Lemma exit_stats_last_of_supervisor_witness :
  run init late_tick = Some after_late_tick /\
  sup after_late_tick = Returned None /\
  stream after_late_tick =
    [(Supervisor, exit_stats usage0); (Pulse, keepalive)] /\
  selected after_late_tick = Some (FromErrChan ExitWaiter None) /\
  forall a s', step after_late_tick a = Some s' ->
               sent_by Pulse (stream s') = sent_by Pulse (stream after_late_tick).
Proof.
  split; [exact run_late_tick|]. split; [reflexivity|]. split; [reflexivity|].
  destruct (exit_stats_last_of_supervisor late_tick after_late_tick run_late_tick)
    as [Hmsg Hquiet].
  split.
  - apply (Hmsg [] [(Pulse, keepalive)] (exit_stats usage0)). reflexivity.
  - intros a s' Hstep. apply (Hquiet None a s'); [reflexivity|exact Hstep].
Defined.













(** After the cancellation the transport refuses a chunk of the stdout
    pump; the pump's report and the done context are both ready and the
    select takes the report. *)
Definition cancelled_send : list action :=
  [PumpRead Stdout [Byte.x68; Byte.x69] None;
   PumpSend Stdout (Some (Err "transport is closing"));
   PumpReport Stdout;
   SupRecv;
   SupStop].

Definition at_select : state :=
  Eval vm_compute in default init (run init handoff).

Lemma run_handoff : run init handoff = Some at_select.
Proof. vm_compute. reflexivity. Qed.

Definition after_cancelled_send : state :=
  Eval vm_compute in
    default init (run at_select (CtxDone (Err "context canceled") :: cancelled_send)).





(** C7, on the code.  [proto.Marshal] fails, or [stdin.Write] fails: the
    call returns the error with the child started and the write end of
    its stdin still open; [stdin.Close] at line 148 is not reached and
    nothing is deferred for it. *)
Definition marshal_fails : list action :=
  [Sup None; Sup None; Sup None; Sup None;
   Sup (Some (Err "proto: Marshal called with nil"));
   SupStop].

Definition write_fails : list action :=
  [Sup None; Sup None; Sup None; Sup None; Sup None;
   Sup (Some (Err "write |1: file too large"));
   SupStop].

Definition after_marshal_fails : state :=
  Eval vm_compute in default init (run init marshal_fails).

Definition after_write_fails : state :=
  Eval vm_compute in default init (run init write_fails).

Theorem stdin_left_open_on_handoff_error :
  (run init marshal_fails = Some after_marshal_fails /\
   sup after_marshal_fails =
     Returned (Some (Err "proto: Marshal called with nil")) /\
   child after_marshal_fails = ChildRunning /\
   stdin after_marshal_fails = PipeOpen /\
   waiter after_marshal_fails = WaiterNotStarted) /\
  (run init write_fails = Some after_write_fails /\
   sup after_write_fails = Returned (Some (Err "write |1: file too large")) /\
   child after_write_fails = ChildRunning /\
   stdin after_write_fails = PipeOpen /\
   waiter after_write_fails = WaiterNotStarted).
Proof.
  split; (split; [vm_compute; reflexivity|by split_and!]).
Qed.

(** *** The capacity of [errChan] *)

Definition pump_owes (pc : pump_pc) : nat :=
  match pc with
  | PumpReturned => 0
  | _ => 1
  end.

Definition waiter_owes (pc : waiter_pc) : nat :=
  match pc with
  | WaiterReturned => 0
  | _ => 1
  end.

(** Every goroutine that may still send on [errChan] has a free slot. *)
Definition capacity_consistent (s : state) : Prop :=
  length (errChan s) + (pump_owes (stdout s) + pump_owes (stderr s)
                        + waiter_owes (waiter s)) <= 3.

Lemma capacity_consistent_step s a s' :
  supervisor_consistent s ->
  capacity_consistent s -> step s a = Some s' -> capacity_consistent s'.
Proof.
  unfold capacity_consistent, supervisor_consistent. intros Hsup Hinv Hstep.
  destruct a as [answer| | | |p data answer|p answer|p| |answer| | |status usage|reason];
    try destruct p; unfold_step; invert_step Hstep;
    rewrite ?length_app in *;
    repeat match goal with
      | H : _ /\ _ |- _ => destruct H
      | H : stdout _ = _ |- _ => rewrite H in *
      | H : stderr _ = _ |- _ => rewrite H in *
      | H : waiter _ = _ |- _ => rewrite H in *
      end;
    simpl in *; lia.
Qed.

Lemma reachable_capacity schedule s :
  run init schedule = Some s -> capacity_consistent s.
Proof.
  intros Hrun.
  apply (run_invariant (fun s => consistent s /\ capacity_consistent s))
    with (schedule := schedule); [| |exact Hrun].
  - split; [apply consistent_init|unfold capacity_consistent; simpl; lia].
  - intros s0 a s1 [[Hsup Hchan] Hcap] Hstep. split; [split|].
    + by eapply supervisor_consistent_step.
    + by eapply channel_consistent_step.
    + by eapply capacity_consistent_step.
Qed.

(** A send on [errChan] never blocks: whenever a pump or the exit waiter
    has a value to report, the channel of capacity 3 has room for it. *)
Theorem errChan_never_full (schedule : list action) (s : state) :
  run init schedule = Some s ->
  length (errChan s) <= 3 /\
  (forall p e, pump_at p s = Reporting e ->
               exists s', step s (PumpReport p) = Some s' /\
                          pump_at p s' = PumpReturned) /\
  (forall v, waiter s = WaiterReporting v ->
             exists s', step s WaitReport = Some s' /\
                        waiter s' = WaiterReturned).
Proof.
  intros Hrun. pose proof (reachable_capacity _ _ Hrun) as Hcap.
  unfold capacity_consistent in Hcap. split; [lia|]. split.
  - intros p e Hp. unfold step, pump_report, push. rewrite Hp.
    destruct p; simpl in Hp; rewrite Hp in Hcap; simpl in Hcap;
      (destruct (decide (length (errChan s) < 3)); [|lia]);
      simpl; eauto.
  - intros v Hv. unfold step, wait_report, push. rewrite Hv in *.
    simpl in Hcap. destruct (decide (length (errChan s) < 3)); [|lia].
    simpl; eauto.
Qed.

(** All three senders fail at once: both pumps cannot send, the child
    exits with status 1, and nobody has received yet. *)
Definition three_reports : list action :=
  handoff ++
  [PumpRead Stdout [Byte.x68] None; PumpSend Stdout (Some (Err "transport is closing"));
   PumpRead Stderr [Byte.x68] None; PumpSend Stderr (Some (Err "transport is closing"));
   ChildExits 1 usage0; WaitReturns;
   PumpReport Stdout; PumpReport Stderr].

Definition after_three_reports : state :=
  Eval vm_compute in default init (run init three_reports).

Lemma run_three_reports : run init three_reports = Some after_three_reports.
Proof. vm_compute. reflexivity. Qed.

Lemma errChan_never_full_witness :
  length (errChan after_three_reports) = 2 /\
  exists s', step after_three_reports WaitReport = Some s' /\
             waiter s' = WaiterReturned.
Proof.
  split; [reflexivity|].
  destruct (errChan_never_full three_reports after_three_reports run_three_reports)
    as (_ & _ & H).
  apply (H (Some (ExitError 1))). reflexivity.
Defined.

(** *** The shape of the responses *)

(** What each goroutine puts on the stream. *)
Definition well_formed (x : goroutine * ExecutionResponse) : Prop :=
  match fst x with
  | StdoutPump =>
      exists data, snd x = mkResponse data [] 0 0 /\ 0 < length data <= 1024
  | StderrPump =>
      exists data, snd x = mkResponse [] data 0 0 /\ 0 < length data <= 1024
  | Pulse => snd x = mkResponse [] [] 0 0
  | Supervisor =>
      exists usage, snd x = mkResponse [] [] (system_time usage) (user_time usage)
  | ExitWaiter => False
  end.

Definition sending_nonempty (pc : pump_pc) : Prop :=
  match pc with
  | Sending data => 0 < length data <= 1024
  | _ => True
  end.

Definition stream_consistent (s : state) : Prop :=
  Forall well_formed (stream s) /\
  sending_nonempty (stdout s) /\ sending_nonempty (stderr s).

Lemma stream_consistent_step s a s' :
  stream_consistent s -> step s a = Some s' -> stream_consistent s'.
Proof.
  unfold stream_consistent. intros (Hstream & Hout & Herr) Hstep.
  destruct a as [answer| | | |p data answer|p answer|p| |answer| | |status usage|reason];
    try destruct p; unfold_step; invert_step Hstep;
    rewrite ?Forall_app, ?Forall_singleton;
    repeat match goal with
      | H : stdout _ = _ |- _ => rewrite H in *
      | H : stderr _ = _ |- _ => rewrite H in *
      end;
    unfold well_formed, sending_nonempty in *; simpl in *;
    try (split_and!; first [assumption | done | by eauto | simpl in *; lia]).
Qed.

Lemma reachable_stream schedule s :
  run init schedule = Some s -> stream_consistent s.
Proof.
  apply run_invariant; [by split_and!; [constructor|..]|].
  intros. by eapply stream_consistent_step.
Qed.

(** Every response on the stream has one of four shapes, by its sender: a
    stdout chunk or a stderr chunk of 1 to 1024 bytes with nothing else
    set, the empty keepalive, or the two times of the exit statistics.
    No chunk is empty and none exceeds the 1024-byte buffer. *)
Theorem responses_well_formed (schedule : list action) (s : state)
    (g : goroutine) (m : ExecutionResponse) :
  run init schedule = Some s ->
  (g, m) ∈ stream s ->
  match g with
  | StdoutPump =>
      Error m = [] /\ SystemTime m = 0%Z /\ UserTime m = 0%Z /\
      0 < length (Output m) <= 1024
  | StderrPump =>
      Output m = [] /\ SystemTime m = 0%Z /\ UserTime m = 0%Z /\
      0 < length (Error m) <= 1024
  | Pulse => m = keepalive
  | Supervisor => Output m = [] /\ Error m = []
  | ExitWaiter => False
  end.
Proof.
  intros Hrun Hin. destruct (reachable_stream _ _ Hrun) as (Hstream & _ & _).
  rewrite Forall_forall in Hstream. specialize (Hstream _ Hin).
  unfold well_formed in Hstream; simpl in Hstream. destruct g; try done.
  - by destruct Hstream as (usage & ->).
  - by destruct Hstream as (data & -> & ?).
  - by destruct Hstream as (data & -> & ?).
Qed.

Lemma responses_well_formed_witness :
  Output (exit_stats usage0) = [] /\ Error (exit_stats usage0) = [].
Proof.
  apply (responses_well_formed late_tick after_late_tick Supervisor
           (exit_stats usage0) run_late_tick).
  apply list_elem_of_In. left. reflexivity.
Defined.

(** *** The tee of the stderr pump *)

(** The bytes of the stderr chunks on a stream, in order. *)
Definition stderr_bytes (l : list (goroutine * ExecutionResponse)) : bytes :=
  concat (Error <$> sent_by StderrPump l).

Definition tee_consistent (s : state) : Prop :=
  match stderr s with
  | PumpNotStarted | Reading => agent_stderr s = stderr_bytes (stream s)
  | Sending data => agent_stderr s = stderr_bytes (stream s) ++ data
  | Reporting _ | PumpReturned =>
      exists rest, agent_stderr s = stderr_bytes (stream s) ++ rest
  end.

Lemma stderr_bytes_snoc g m l :
  stderr_bytes (l ++ [(g, m)])
  = stderr_bytes l ++ (if decide (g = StderrPump) then Error m else []).
Proof.
  unfold stderr_bytes. rewrite sent_by_snoc, fmap_app, concat_app. f_equal.
  destruct (decide (g = StderrPump)); simpl; by rewrite ?app_nil_r.
Qed.

Lemma tee_consistent_step s a s' :
  supervisor_consistent s ->
  tee_consistent s -> step s a = Some s' -> tee_consistent s'.
Proof.
  unfold tee_consistent, supervisor_consistent. intros Hsup Hinv Hstep.
  destruct a as [answer| | | |p data answer|p answer|p| |answer| | |status usage|reason];
    try destruct p; unfold_step; invert_step Hstep;
    rewrite ?stderr_bytes_snoc; simpl; rewrite ?app_nil_r;
    repeat match goal with
      | H : stderr _ = _ |- _ => rewrite H in *
      end;
    try assumption;
    try (destruct (stderr _); assumption);
    try (rewrite Hinv; by rewrite ?app_nil_r);
    try (eexists; by rewrite Hinv).
  - (* the child is started: the pumps have not run *)
    destruct Hsup as (_ & _ & _ & _ & _ & _ & Herr & _).
    by rewrite Herr in Hinv.
Qed.

Lemma reachable_tee schedule s :
  run init schedule = Some s -> tee_consistent s.
Proof.
  intros Hrun.
  apply (run_invariant (fun s => consistent s /\ tee_consistent s))
    with (schedule := schedule); [| |exact Hrun].
  - split; [apply consistent_init|reflexivity].
  - intros s0 a s1 [[Hsup Hchan] Htee] Hstep. split; [split|].
    + by eapply supervisor_consistent_step.
    + by eapply channel_consistent_step.
    + by eapply tee_consistent_step.
Qed.

(** What the client has received as stderr chunks is, byte for byte and in
    order, the beginning of what the tee copied to the agent's own stderr;
    between two reads of the pump the two are equal, and with a chunk in
    flight they differ by exactly that chunk. *)
Theorem stderr_is_mirrored (schedule : list action) (s : state) :
  run init schedule = Some s ->
  (exists rest, agent_stderr s = stderr_bytes (stream s) ++ rest) /\
  (stderr s = Reading -> agent_stderr s = stderr_bytes (stream s)) /\
  (forall data, stderr s = Sending data ->
                agent_stderr s = stderr_bytes (stream s) ++ data).
Proof.
  intros Hrun. pose proof (reachable_tee _ _ Hrun) as Htee.
  unfold tee_consistent in Htee. split; [|split].
  - destruct (stderr s); eauto; exists []; by rewrite app_nil_r.
  - intros Hr. by rewrite Hr in Htee.
  - intros data Hd. by rewrite Hd in Htee.
Qed.

(** The child writes "hi" and "!" to stderr; the first chunk has been
    sent, the second is in flight. *)
Definition two_stderr_reads : list action :=
  handoff ++
  [PumpRead Stderr [Byte.x68; Byte.x69] None; PumpSend Stderr None;
   PumpRead Stdout [Byte.x2e] None;
   PumpRead Stderr [Byte.x21] None].

Definition after_two_stderr_reads : state :=
  Eval vm_compute in default init (run init two_stderr_reads).

Lemma run_two_stderr_reads :
  run init two_stderr_reads = Some after_two_stderr_reads.
Proof. vm_compute. reflexivity. Qed.

Lemma stderr_is_mirrored_witness :
  agent_stderr after_two_stderr_reads
  = stderr_bytes (stream after_two_stderr_reads) ++ [Byte.x21].
Proof.
  destruct (stderr_is_mirrored two_stderr_reads after_two_stderr_reads
              run_two_stderr_reads) as (_ & _ & H).
  apply H. reflexivity.
Defined.

(** *** Kill and Release *)

(** The process is killed and its handle released only after the select
    took the done context: an error of a pump, of the exit waiter or of
    the instruction hand-off leaves the child alone.  [Release] is never
    called without [Kill] before it. *)
Theorem kill_only_on_cancellation (schedule : list action) (s : state) :
  run init schedule = Some s ->
  (killed s = true -> selected s = Some FromDone /\ is_Some (ctx s)) /\
  (released s = true -> killed s = true) /\
  (forall g v, selected s = Some (FromErrChan g v) ->
               killed s = false /\ released s = false) /\
  (selected s = None -> killed s = false /\ released s = false).
Proof.
  intros Hrun. destruct (reachable_consistent _ _ Hrun) as [Hsup _].
  unfold supervisor_consistent, outcome, quiet in Hsup.
  destruct (sup s);
    destruct (selected s) as [[g [e|]|]|];
    repeat match goal with
      | H : _ /\ _ |- _ => destruct H
      | H : exists _, _ |- _ => destruct H
      end;
    try discriminate;
    (split_and!; intros; simplify_eq; try done; try congruence;
     try by split_and!).
Qed.

Lemma kill_only_on_cancellation_witness :
  killed after_cancelled_send = false /\ released after_cancelled_send = false.
Proof.
  destruct (kill_only_on_cancellation
              (handoff ++ CtxDone (Err "context canceled") :: cancelled_send)
              after_cancelled_send) as (_ & _ & H & _).
  - vm_compute. reflexivity.
  - apply (H StdoutPump
             (Some (Errorf "Failed to send stdout: %v" (Err "transport is closing")))).
    reflexivity.
Defined.

(** *** A call that returns nil *)

Definition exit_consistent (s : state) : Prop :=
  match waiter s with
  | WaiterNotStarted | InWait =>
      cmd_ProcessState s = None /\
      Forall (fun x => fst x <> ExitWaiter) (errChan s) /\
      forall v, selected s <> Some (FromErrChan ExitWaiter v)
  | WaiterReporting _ | WaiterReturned =>
      exists status usage,
        child s = ChildExited status usage /\ cmd_ProcessState s = Some usage
  end /\
  match sup s with
  | AtDeferredStop None | Returned None =>
      exists status usage,
        child s = ChildExited status usage /\
        sent_by Supervisor (stream s) = [exit_stats usage]
  | AtDeferredStop (Some _) | Returned (Some _) => True
  | AtSelect | AtExitStats | AtKill | AtRelease => True
  | _ => waiter s = WaiterNotStarted
  end.

Ltac split_hyps :=
  repeat match goal with
    | H : _ /\ _ |- _ => destruct H
    | H : exists _, _ |- _ => destruct H
    end.

Lemma exit_consistent_step s a s' :
  consistent s -> exit_consistent s -> step s a = Some s' -> exit_consistent s'.
Proof.
  unfold exit_consistent.
  intros [Hsup (Hchan & Hsel & Hwait)] [Hw Hs] Hstep.
  unfold supervisor_consistent in Hsup.
  destruct a as [answer| | | |p data answer|p answer|p| |answer| | |status usage|reason];
    try destruct p; unfold_step; invert_step Hstep;
    rewrite ?sent_by_snoc; simpl; rewrite ?app_nil_r;
    try (split; [exact Hw | first [exact Hs | done]]);
    repeat match goal with
      | H : ?f ?x = _ |- context [?f ?x] => rewrite H
      end;
    try (split; [exact Hw | first [exact Hs | done]]).
  - (* Start *)
    destruct Hsup as (_ & _ & _ & Hwt & _). rewrite Hwt in *. by split.
  - (* stdin closed, the waiter starts *)
    rewrite Hs in Hw. by split.
  - (* exit statistics sent *)
    unfold quiet in Hsup. destruct Hsup as (_ & (Hnone & _) & _).
    rewrite Hnone; simpl. split; [exact Hw|].
    destruct (waiter s); split_hyps; simplify_eq; eauto.
  - (* no ProcessState: the select cannot have taken a nil *)
    exfalso. destruct Hsup as ((g & Hg) & _).
    destruct (reported_nil _ _ (Hsel _ _ Hg)) as [-> _].
    destruct (waiter s); split_hyps; simplify_eq; naive_solver.
  - (* Release *)
    destruct Hsup as (_ & [reason Hctx] & _). rewrite Hctx. by split.
  - (* the select takes an error *)
    split; [|done]. destruct (waiter s); try done.
    all: destruct Hw as (? & Hall & _); apply Forall_cons in Hall as [Hne Hall];
      split_and!; try done; intros v [= -> _]; done.
  - (* the select takes nil *)
    split; [|done]. destruct (waiter s); try done.
    all: destruct Hw as (? & Hall & _); apply Forall_cons in Hall as [Hne Hall];
      split_and!; try done; intros v [= -> _]; done.
  - (* the select takes the done context *)
    split; [|done]. destruct (waiter s); try done.
    all: destruct Hw as (? & Hall & _); by split_and!.
  - (* the stdout pump reports *)
    split; [|exact Hs]. destruct (waiter s); try done.
    all: destruct Hw as (? & Hall & ?); split_and!; try done;
      rewrite Forall_app, Forall_singleton; by split.
  - (* the stderr pump reports *)
    split; [|exact Hs]. destruct (waiter s); try done.
    all: destruct Hw as (? & Hall & ?); split_and!; try done;
      rewrite Forall_app, Forall_singleton; by split.
  - (* Wait returns nil *)
    split; [eauto|]. destruct (sup s) as [| | | | | | | | | | |[?|]|[?|]]; done.
  - (* Wait returns an exit error *)
    split; [eauto|]. destruct (sup s) as [| | | | | | | | | | |[?|]|[?|]]; done.
  - (* the waiter reports *)
    split; [exact Hw|].
    destruct (sup s) as [| | | | | | | | | | |[?|]|[?|]]; done.
  - (* the child exits *)
    split.
    + destruct (waiter s); try done; by destruct Hw as (? & ? & ? & _).
    + destruct (sup s) as [| | | | | | | | | | |[?|]|[?|]]; try done;
        by destruct Hs as (? & ? & ? & _).
Qed.

Lemma reachable_exit schedule s :
  run init schedule = Some s -> consistent s /\ exit_consistent s.
Proof.
  intros Hrun.
  apply (run_invariant (fun s => consistent s /\ exit_consistent s))
    with (schedule := schedule); [| |exact Hrun].
  - split; [apply consistent_init|]. split; simpl; [|done].
    by split_and!; [|constructor|].
  - intros s0 a s1 [Hcons Hexit] Hstep. split.
    + destruct Hcons as [Hsup Hchan]. split.
      * by eapply supervisor_consistent_step.
      * by eapply channel_consistent_step.
    + by eapply exit_consistent_step.
Qed.

(** A call returns nil only for a child that exited with status 0: the
    select took the nil of the exit waiter, exactly one message of the
    supervisor is on the stream, the exit statistics of that child, and
    the process was neither killed nor released.  [cmd.ProcessState] is
    never nil where [sendExitStats] tests it. *)
Theorem nil_means_clean_exit (schedule : list action) (s : state) :
  run init schedule = Some s ->
  (sup s = Returned None ->
   exists usage,
     child s = ChildExited 0 usage /\
     selected s = Some (FromErrChan ExitWaiter None) /\
     sent_by Supervisor (stream s) = [exit_stats usage] /\
     killed s = false /\ released s = false) /\
  (sup s = AtExitStats -> is_Some (cmd_ProcessState s)).
Proof.
  intros Hrun.
  destruct (reachable_exit _ _ Hrun) as [[Hsup (_ & Hsel & _)] [Hw Hs]].
  unfold supervisor_consistent, outcome in Hsup. split.
  - intros Hret. rewrite Hret in Hsup, Hs.
    destruct Hs as (status & usage & Hchild & Hsent).
    destruct (selected s) as [[g [e|]|]|] eqn:Hg.
    + by destruct Hsup as [[? _] _].
    + destruct (reported_nil _ _ (Hsel _ _ eq_refl)) as [-> [usage' Hc]].
      destruct Hsup as [(Hk & Hr & _) _].
      rewrite Hchild in Hc. injection Hc as -> ->. eauto 10.
    + destruct Hsup as [(Hctx & [reason Hsome] & _) _]. congruence.
    + by destruct Hsup as [[[? ?] _] _].
  - intros Hat. rewrite Hat in Hsup. destruct Hsup as ((g & Hg) & _).
    destruct (reported_nil _ _ (Hsel _ _ Hg)) as [-> _].
    destruct (waiter s).
    + destruct Hw as (_ & _ & Hno). by destruct (Hno None).
    + destruct Hw as (_ & _ & Hno). by destruct (Hno None).
    + destruct Hw as (? & ? & _ & ->). eauto.
    + destruct Hw as (? & ? & _ & ->). eauto.
Qed.

(** A clean run without a tick. *)
Definition clean_run : list action :=
  handoff ++ drained ++
  [ChildExits 0 usage0; WaitReturns; WaitReport; SupRecv; Sup None; SupStop].

Definition after_clean_run : state :=
  Eval vm_compute in default init (run init clean_run).

Lemma run_clean_run : run init clean_run = Some after_clean_run.
Proof. vm_compute. reflexivity. Qed.

Lemma nil_means_clean_exit_witness :
  exists usage,
    child after_clean_run = ChildExited 0 usage /\
    selected after_clean_run = Some (FromErrChan ExitWaiter None) /\
    sent_by Supervisor (stream after_clean_run) = [exit_stats usage] /\
    killed after_clean_run = false /\ released after_clean_run = false.
Proof.
  destruct (nil_means_clean_exit clean_run after_clean_run run_clean_run)
    as [H _].
  apply H. reflexivity.
Defined.

(** *** The deferred stop *)

(** A supervisor that has its result and waits in the deferred
    [stopChan <- true] returns that result as soon as the pulse is back
    at its select: at once when the pulse waits there, after the
    keepalive in flight otherwise.  Only a keepalive that the transport
    refused leaves it waiting for ever. *)
Theorem deferred_stop_completes (schedule : list action) (s : state)
    (result : option error) :
  run init schedule = Some s ->
  sup s = AtDeferredStop result ->
  (forall e, pulse s <> PulseReturned (Some e)) ->
  exists rest s',
    (rest = [SupStop] \/ rest = [PulseSend None; SupStop]) /\
    run s rest = Some s' /\
    sup s' = Returned result /\ pulse s' = PulseReturned None /\
    selected s' = selected s /\ errChan s' = errChan s.
Proof.
  intros Hrun Hat Hpulse. destruct (reachable_consistent _ _ Hrun) as [Hsup _].
  unfold supervisor_consistent, pulse_running in Hsup. rewrite Hat in Hsup.
  destruct Hsup as (_ & Hn & Hr).
  destruct (pulse s) as [| | |[e|]] eqn:Hp; try done.
  - exists [SupStop]. eexists. split; [by left|].
    unfold run, step, stop. rewrite Hat, Hp. by split_and!.
  - exists [PulseSend None; SupStop]. eexists. split; [by right|].
    unfold run, step, pulse_send. rewrite Hp. unfold stop; fields.
    rewrite Hat. by split_and!.
  - by destruct (Hpulse e).
Qed.

(** The stdout pump could not send; a tick was taken just before the
    supervisor got the pump's report. *)
Definition tick_before_stop : list action :=
  handoff ++
  [PumpRead Stdout [Byte.x68] None; PumpSend Stdout (Some (Err "transport is closing"));
   PumpReport Stdout; Tick; SupRecv].

Definition after_tick_before_stop : state :=
  Eval vm_compute in default init (run init tick_before_stop).

Lemma run_tick_before_stop :
  run init tick_before_stop = Some after_tick_before_stop.
Proof. vm_compute. reflexivity. Qed.

Lemma deferred_stop_completes_witness :
  exists rest s',
    (rest = [SupStop] \/ rest = [PulseSend None; SupStop]) /\
    run after_tick_before_stop rest = Some s' /\
    sup s' = Returned
               (Some (Errorf "Failed to send stdout: %v" (Err "transport is closing"))) /\
    pulse s' = PulseReturned None /\
    selected s' = selected after_tick_before_stop /\
    errChan s' = errChan after_tick_before_stop.
Proof.
  apply (deferred_stop_completes tick_before_stop after_tick_before_stop
           _ run_tick_before_stop); [reflexivity|].
  intros e. discriminate.
Defined.

(** *** Before the child runs, and the start of the exit waiter *)

Definition spawn_consistent (s : state) : Prop :=
  match child s with
  | NoChild =>
      stream s = [] /\ errChan s = [] /\ agent_stderr s = [] /\
      cmd_ProcessState s = None /\
      stdout s = PumpNotStarted /\ stderr s = PumpNotStarted /\
      pulse s = PulseNotStarted /\ waiter s = WaiterNotStarted /\
      match sup s with
      | AtStdinPipe | AtStdoutPipe | AtStderrPipe | AtStart
      | Returned (Some _) => True
      | _ => False
      end
  | _ => True
  end /\
  (waiter s <> WaiterNotStarted -> stdin s = PipeClosed) /\
  match sup s with
  | AtDeferredStop _ | Returned _ =>
      selected s = None -> waiter s = WaiterNotStarted
  | _ => True
  end.

Lemma spawn_consistent_step s a s' :
  supervisor_consistent s -> spawn_consistent s -> step s a = Some s' ->
  spawn_consistent s'.
Proof.
  unfold spawn_consistent, supervisor_consistent.
  intros Hsup (Hc & Hw & Hs) Hstep.
  destruct a as [answer| | | |p data answer|p answer|p| |answer| | |status usage|reason];
    try destruct p; unfold_step; invert_step Hstep;
    unfold quiet, pulse_running in *; split_hyps;
    repeat match goal with
      | H : ?f ?x = _ |- context [?f ?x] => rewrite H
      end;
    try (split_and!; first [assumption | done | congruence]);
    repeat match goal with
      | H : context [match child ?x with _ => _ end] |- _ =>
          destruct (child x) eqn:?
      | |- context [match child ?x with _ => _ end] =>
          destruct (child x) eqn:?
      | H : context [match sup ?x with _ => _ end] |- _ =>
          destruct (sup x) as [| | | | | | | | | | |?|[?|]] eqn:?
      | |- context [match sup ?x with _ => _ end] =>
          destruct (sup x) as [| | | | | | | | | | |?|[?|]] eqn:?
      end;
    split_hyps; simplify_eq;
    try solve [intuition (try congruence; eauto)].
Qed.

Lemma reachable_spawn schedule s :
  run init schedule = Some s -> spawn_consistent s.
Proof.
  intros Hrun.
  apply (run_invariant (fun s => consistent s /\ spawn_consistent s))
    with (schedule := schedule); [| |exact Hrun].
  - split; [apply consistent_init|]. unfold spawn_consistent; simpl.
    by split_and!.
  - intros s0 a s1 [[Hsup Hchan] Hspawn] Hstep. split; [split|].
    + by eapply supervisor_consistent_step.
    + by eapply channel_consistent_step.
    + by eapply spawn_consistent_step.
Qed.

(** As long as no child was started (a pipe could not be made, or
    [command.Start] failed) nothing has been sent or copied, [errChan] is
    empty, none of the four goroutines runs, and a call that returns,
    returns an error. *)
Theorem nothing_before_spawn (schedule : list action) (s : state) :
  run init schedule = Some s ->
  child s = NoChild ->
  stream s = [] /\ errChan s = [] /\ agent_stderr s = [] /\
  stdout s = PumpNotStarted /\ stderr s = PumpNotStarted /\
  pulse s = PulseNotStarted /\ waiter s = WaiterNotStarted /\
  forall result, sup s = Returned result -> is_Some result.
Proof.
  intros Hrun Hchild. destruct (reachable_spawn _ _ Hrun) as (Hc & _ & _).
  rewrite Hchild in Hc.
  destruct Hc as (? & ? & ? & _ & ? & ? & ? & ? & Hsup).
  split_and!; try done. intros result Hret. rewrite Hret in Hsup.
  by destruct result.
Qed.

Definition start_fails : list action :=
  [Sup None; Sup None; Sup None;
   Sup (Some (Err "fork/exec /opt/gleam: no such file or directory"));
   CtxDone (Err "context canceled")].

Definition after_start_fails : state :=
  Eval vm_compute in default init (run init start_fails).

Lemma run_start_fails : run init start_fails = Some after_start_fails.
Proof. vm_compute. reflexivity. Qed.

Lemma nothing_before_spawn_witness :
  stream after_start_fails = [] /\ errChan after_start_fails = [] /\
  agent_stderr after_start_fails = [] /\
  stdout after_start_fails = PumpNotStarted /\
  stderr after_start_fails = PumpNotStarted /\
  pulse after_start_fails = PulseNotStarted /\
  waiter after_start_fails = WaiterNotStarted /\
  forall result, sup after_start_fails = Returned result -> is_Some result.
Proof.
  apply (nothing_before_spawn start_fails after_start_fails run_start_fails).
  reflexivity.
Defined.

(** [command.Wait] is called only after the child's stdin was closed; a
    call that fails before its select (a pipe, the start, the marshalling,
    the write or the close) returns without ever waiting for the child, so
    [cmd.ProcessState] stays nil. *)
Theorem wait_only_after_handoff (schedule : list action) (s : state) :
  run init schedule = Some s ->
  (waiter s <> WaiterNotStarted -> stdin s = PipeClosed) /\
  (forall result,
     sup s = Returned result -> selected s = None ->
     is_Some result /\ waiter s = WaiterNotStarted /\
     cmd_ProcessState s = None).
Proof.
  intros Hrun. destruct (reachable_spawn _ _ Hrun) as (_ & Hw & Hs).
  destruct (reachable_exit _ _ Hrun) as [[Hsup _] [Hexit _]].
  split; [exact Hw|]. intros result Hret Hnone.
  rewrite Hret in Hs. specialize (Hs Hnone).
  rewrite Hs in Hexit. destruct Hexit as (Hps & _).
  unfold supervisor_consistent, outcome in Hsup.
  rewrite Hret, Hnone in Hsup. by destruct Hsup as [[? _] _].
Qed.

Lemma wait_only_after_handoff_witness :
  stdin at_select = PipeClosed /\
  is_Some (Some (Err "write |1: file too large")) /\
  waiter after_write_fails = WaiterNotStarted /\
  cmd_ProcessState after_write_fails = None.
Proof.
  split.
  - destruct (wait_only_after_handoff handoff at_select run_handoff) as [H _].
    apply H. discriminate.
  - destruct (wait_only_after_handoff write_fails after_write_fails) as [_ H].
    + vm_compute. reflexivity.
    + apply H; reflexivity.
Defined.


(** Once [streamPulse] has returned an error it stays returned. *)
(** *** The pumps are not joined *)





Lemma failed_pulse_step s a s' e :
  supervisor_consistent s ->
  step s a = Some s' ->
  pulse s = PulseReturned (Some e) ->
  pulse s' = PulseReturned (Some e).
Proof.
  unfold supervisor_consistent. intros Hsup Hstep Hp.
  destruct a as [answer| | | |p data answer|p answer|p| |answer| | |status usage|reason];
    try destruct p; unfold_step; invert_step Hstep; try congruence.
  destruct Hsup as (_ & _ & Hn & _). congruence.
Qed.

End Exec_facts.

Section Agent_facts.
Import Agent.
Local Open Scope Z_scope.

Lemma pow_half bits : 0 < bits -> 2 ^ bits = 2 * 2 ^ (bits - 1).
Proof. intros H. rewrite <- Z.pow_succ_r by lia. f_equal. lia. Qed.

Lemma wrap_add bits x y : wrap bits (wrap bits x + y) = wrap bits (x + y).
Proof.
  unfold wrap. f_equal.
  replace ((x + 2 ^ (bits - 1)) mod 2 ^ bits - 2 ^ (bits - 1) + y
           + 2 ^ (bits - 1))
    with ((x + 2 ^ (bits - 1)) mod 2 ^ bits + y) by lia.
  rewrite Zplus_mod_idemp_l. f_equal. lia.
Qed.

Lemma wrap_sub bits x y : wrap bits (wrap bits x - y) = wrap bits (x - y).
Proof.
  replace (wrap bits x - y) with (wrap bits x + - y) by lia.
  by rewrite wrap_add.
Qed.

Lemma wrap_in_range bits x : 0 < bits -> in_range bits x -> wrap bits x = x.
Proof.
  unfold wrap, in_range. intros Hb Hx. rewrite Z.mod_small; [lia|].
  rewrite (pow_half bits Hb). lia.
Qed.

(** The sum of one axis over what the calls hold. *)
Fixpoint total (axis : ComputeResource -> Z) (cs : list call) : Z :=
  match cs with
  | [] => 0
  | c :: rest => axis (held c) + total axis rest
  end.

Lemma total_insert axis cs : forall (i : nat) c c',
  cs !! i = Some c ->
  total axis (<[i := c']> cs) = total axis cs - axis (held c) + axis (held c').
Proof.
  induction cs as [|c0 cs IH]; intros [|i] c c' Hi; simpl in *; try done.
  - injection Hi as ->. lia.
  - rewrite (IH i c c' Hi). lia.
Qed.

Lemma total_idle axis cs :
  axis (mkResource 0 0 0) = 0 ->
  Forall (fun c => held c = mkResource 0 0 0) cs ->
  total axis cs = 0.
Proof.
  intros H0. induction 1 as [|c cs Hc _ IH]; simpl; [done|].
  rewrite IH, Hc. lia.
Qed.

Lemma over_idle c : over c -> held c = mkResource 0 0 0.
Proof. unfold over, held. by destruct (at_pc c). Qed.

Definition ledger_consistent (ledger : ComputeResource) (ag : agent) : Prop :=
  CpuCount (allocatedResource ag)
    = wrap 32 (CpuCount ledger + total CpuCount (calls ag)) /\
  MemoryMb (allocatedResource ag)
    = wrap 64 (MemoryMb ledger + total MemoryMb (calls ag)) /\
  GpuCount (allocatedResource ag)
    = wrap 32 (GpuCount ledger + total GpuCount (calls ag)).

Definition call_consistent (c : call) : Prop :=
  match at_pc c with
  | InCommand allocated => Resource (request c) = Some allocated
  | Left _ => is_Some (Resource (request c))
  | _ => True
  end.

Definition log_consistent (ag : agent) : Prop :=
  forall (i : nat) c,
    calls ag !! i = Some c ->
    adjustments_of i ag = expected c /\ call_consistent c.

Lemma serve_invariant (P : agent -> Prop) (ag0 : agent) :
  P ag0 ->
  (forall ag i m ag', P ag -> Execute i m ag = Some ag' -> P ag') ->
  forall schedule ag, serve ag0 schedule = Some ag -> P ag.
Proof.
  intros H0 Hstep schedule. revert ag0 H0.
  induction schedule as [|[i m] rest IH]; intros ag0 H0 ag Hrun; simpl in Hrun.
  - by simplify_eq.
  - destruct (Execute i m ag0) as [ag1|] eqn:Hs; [|done]. eauto.
Qed.

Ltac invert_Execute H :=
  unfold Execute in H;
  repeat match type of H with
    | context [match ?x with _ => _ end] =>
        let E := fresh "E" in destruct x eqn:E; try discriminate H
    end;
  injection H as <-.

Lemma ledger_consistent_step ledger ag i m ag' :
  ledger_consistent ledger ag -> Execute i m ag = Some ag' ->
  ledger_consistent ledger ag'.
Proof.
  intros (Hc & Hm & Hg) Hstep. invert_Execute Hstep;
    unfold ledger_consistent, with_call, plusAllocated, minusAllocated; simpl;
    match goal with
    | Hi : calls ag !! i = Some ?c |- _ =>
        rewrite !(total_insert _ _ _ _ _ Hi); unfold held; simpl
    end;
    match goal with H : at_pc _ = _ |- _ => rewrite H end;
    simpl; rewrite ?Hc, ?Hm, ?Hg, ?wrap_add, ?wrap_sub;
    split_and!; f_equal; lia.
Qed.

Lemma adjustments_snoc (i j : nat) (op : ledger_op) (l : list (nat * ledger_op)) :
  snd <$> filter (fun x => fst x = i) (l ++ [(j, op)])
  = (snd <$> filter (fun x => fst x = i) l)
    ++ (if decide (j = i) then [op] else []).
Proof.
  rewrite filter_app, fmap_app. f_equal.
  rewrite filter_cons, filter_nil; simpl. by destruct (decide (j = i)).
Qed.

Lemma log_consistent_step ag i m ag' :
  log_consistent ag -> Execute i m ag = Some ag' -> log_consistent ag'.
Proof.
  intros Hlog Hstep j cj Hj. invert_Execute Hstep;
    unfold with_call, plusAllocated, minusAllocated in *; simpl in Hj;
    (destruct (decide (i = j)) as [->|Hne];
     [ rewrite list_lookup_insert_eq in Hj by (eapply lookup_lt_Some; eauto);
       injection Hj as <-;
       match goal with
       | Hi : calls ag !! j = Some ?c |- _ => destruct (Hlog j c Hi) as [Hadj Hcc]
       end
     | rewrite list_lookup_insert_ne in Hj by done;
       destruct (Hlog j cj Hj) as [Hadj Hcc] ]);
    unfold adjustments_of in *; simpl;
    rewrite ?adjustments_snoc;
    rewrite ?Hadj; unfold expected, call_consistent in *; simpl in *;
    repeat match goal with
      | H : at_pc _ = _ |- _ => rewrite H in *
      | H : Resource _ = _ |- _ => rewrite H in *
      end;
    repeat case_decide; try done; simpl; rewrite ?app_nil_r; try done.
Qed.

Lemma arrive_consistent ledger requests :
  valid ledger ->
  ledger_consistent ledger (arrive ledger requests) /\
  log_consistent (arrive ledger requests).
Proof.
  intros (Hc & Hm & Hg). split.
  - assert (Hidle : Forall (fun c => held c = mkResource 0 0 0)
                           (calls (arrive ledger requests))).
    { unfold arrive; simpl. apply Forall_fmap. by apply Forall_true. }
    unfold ledger_consistent.
    rewrite !(total_idle _ _ eq_refl Hidle), !Z.add_0_r.
    by rewrite !wrap_in_range.
  - intros i c Hi. unfold arrive in Hi; simpl in Hi.
    apply list_lookup_fmap_Some in Hi as (r & -> & _). by split.
Qed.

(** What holds of the calls that do return.  With the calls for
    [requests] arriving at an agent whose ledger holds [ledger], after
    any interleaving of their steps: every call has made exactly the
    adjustments its program point tells, none before admission, one plus
    of its request's allocation from admission on, and the matching
    minus once [Execute] has returned, whatever [executeCommand]
    returned (nil, an error of a pump or of the child, the context's
    error); a call that panics on a request without allocation has not
    touched the ledger.  When all calls are over the ledger holds
    [ledger] again.  Whether a call gets to return is another matter. *)
Theorem ledger_restored (ledger : ComputeResource)
    (requests : list ExecutionRequest) (schedule : list (nat * move))
    (ag : agent) :
  valid ledger ->
  serve (arrive ledger requests) schedule = Some ag ->
  (forall (i : nat) c,
     calls ag !! i = Some c ->
     adjustments_of i ag = expected c /\
     forall result,
       at_pc c = Left result ->
       exists allocated,
         Resource (request c) = Some allocated /\
         adjustments_of i ag = [plus allocated; minus allocated]) /\
  (Forall over (calls ag) -> allocatedResource ag = ledger).
Proof.
  intros Hvalid Hserve.
  assert (Hinv : ledger_consistent ledger ag /\ log_consistent ag).
  { apply (serve_invariant
             (fun ag => ledger_consistent ledger ag /\ log_consistent ag)
             (arrive ledger requests)) with (schedule := schedule);
      [| |exact Hserve].
    - by apply arrive_consistent.
    - intros ag0 i m ag1 [H1 H2] Hstep. split.
      + by eapply ledger_consistent_step.
      + by eapply log_consistent_step. }
  destruct Hinv as [(Hc & Hm & Hg) Hlog]. split.
  - intros i c Hi. destruct (Hlog i c Hi) as [Hadj Hcc].
    split; [done|]. intros result Hat.
    unfold call_consistent, expected in *. rewrite Hat in *.
    destruct Hcc as [allocated Hres]. rewrite Hres in Hadj. eauto.
  - intros Hover.
    assert (Hidle : Forall (fun c => held c = mkResource 0 0 0) (calls ag)).
    { eapply Forall_impl; [exact Hover|]. apply over_idle. }
    destruct Hvalid as (Vc & Vm & Vg).
    rewrite (total_idle _ _ eq_refl Hidle), Z.add_0_r, wrap_in_range in Hc by done.
    rewrite (total_idle _ _ eq_refl Hidle), Z.add_0_r, wrap_in_range in Hm by done.
    rewrite (total_idle _ _ eq_refl Hidle), Z.add_0_r, wrap_in_range in Hg by done.
    destruct (allocatedResource ag), ledger; simpl in *. congruence.
Qed.

(** Two calls in flight at once, with allocations (2, 1024, 0) and
    (3, 2048, 1): the first runs a child to a clean exit, the second is
    cancelled. *)
Definition two_requests : list ExecutionRequest :=
  [mkExecutionRequest "count" "stage" 7 (Some (mkResource 2 1024 0));
   mkExecutionRequest "sort" "stage" 7 (Some (mkResource 3 2048 1))].

Definition of_call (i : nat) (schedule : list Exec.action) : list (nat * move) :=
  (fun a => (i, InsideCommand a)) <$> schedule.

Definition two_calls : list (nat * move) :=
  [(0%nat, DoMkdirAll None); (1%nat, DoMkdirAll None);
   (0%nat, Admit); (1%nat, Admit)]
  ++ of_call 0 late_tick
  ++ of_call 1 (handoff ++ [Exec.CtxDone (Err "context canceled");
                            Exec.SupDone; Exec.Sup None; Exec.Sup None;
                            Exec.SupStop])
  ++ [(1%nat, Leave); (0%nat, Leave)].

Definition busy_ledger : ComputeResource := mkResource 1 512 0.

Definition after_two_calls : agent :=
  Eval vm_compute in
    default (arrive busy_ledger []) (serve (arrive busy_ledger two_requests) two_calls).

Lemma serve_two_calls :
  serve (arrive busy_ledger two_requests) two_calls = Some after_two_calls.
Proof. vm_compute. reflexivity. Qed.

Lemma ledger_restored_witness :
  serve (arrive busy_ledger two_requests) two_calls = Some after_two_calls /\
  adjustments after_two_calls =
    [(0%nat, plus (mkResource 2 1024 0)); (1%nat, plus (mkResource 3 2048 1));
     (1%nat, minus (mkResource 3 2048 1)); (0%nat, minus (mkResource 2 1024 0))] /\
  adjustments_of 1 after_two_calls =
    [plus (mkResource 3 2048 1); minus (mkResource 3 2048 1)] /\
  allocatedResource after_two_calls = busy_ledger.
Proof.
  split; [exact serve_two_calls|]. split; [reflexivity|].
  assert (Hvalid : valid busy_ledger) by (repeat split; by vm_compute).
  destruct (ledger_restored busy_ledger two_requests two_calls after_two_calls
              Hvalid serve_two_calls) as [Hcalls Hledger].
  split.
  - destruct (Hcalls 1%nat _ eq_refl) as [_ Hleft].
    destruct (Hleft _ eq_refl) as (allocated & [= <-] & Hadj). exact Hadj.
  - apply Hledger. repeat constructor.
Defined.

(** *** The ledger while calls are in flight *)

Lemma requests_kept_step ag i m ag' :
  Execute i m ag = Some ag' -> request <$> calls ag' = request <$> calls ag.
Proof.
  intros Hstep. invert_Execute Hstep;
    unfold with_call, plusAllocated, minusAllocated; simpl;
    rewrite list_fmap_insert; simpl;
    (apply list_insert_id; rewrite list_lookup_fmap;
     match goal with H : calls ag !! i = Some _ |- _ => by rewrite H end).
Qed.

(** At every moment of every interleaving the ledger holds, on each axis,
    the value it had when the calls arrived plus the allocations of the
    calls that are inside [executeCommand], no more and no less; and the
    agent still has the same calls for the same requests. *)
Theorem ledger_tracks_calls (ledger : ComputeResource)
    (requests : list ExecutionRequest) (schedule : list (nat * move))
    (ag : agent) :
  valid ledger ->
  serve (arrive ledger requests) schedule = Some ag ->
  CpuCount (allocatedResource ag)
    = wrap 32 (CpuCount ledger + total CpuCount (calls ag)) /\
  MemoryMb (allocatedResource ag)
    = wrap 64 (MemoryMb ledger + total MemoryMb (calls ag)) /\
  GpuCount (allocatedResource ag)
    = wrap 32 (GpuCount ledger + total GpuCount (calls ag)) /\
  request <$> calls ag = requests.
Proof.
  intros Hvalid Hserve.
  assert (Hinv : ledger_consistent ledger ag /\
                 request <$> calls ag = requests).
  { apply (serve_invariant
             (fun ag => ledger_consistent ledger ag /\
                        request <$> calls ag = requests)
             (arrive ledger requests)) with (schedule := schedule);
      [| |exact Hserve].
    - split; [by apply arrive_consistent|].
      unfold arrive; simpl. rewrite <- list_fmap_compose.
      by rewrite list_fmap_id.
    - intros ag0 i m ag1 [H1 H2] Hstep. split.
      + by eapply ledger_consistent_step.
      + by rewrite (requests_kept_step _ _ _ _ Hstep). }
  destruct Hinv as [(Hc & Hm & Hg) Hreq]. by split_and!.
Qed.

(** Both calls are admitted and neither has left. *)
Definition both_admitted : list (nat * move) :=
  [(0%nat, DoMkdirAll None); (1%nat, DoMkdirAll None);
   (0%nat, Admit); (1%nat, Admit)]
  ++ of_call 0 handoff.

Definition while_both_run : agent :=
  Eval vm_compute in
    default (arrive busy_ledger [])
            (serve (arrive busy_ledger two_requests) both_admitted).

Lemma serve_both_admitted :
  serve (arrive busy_ledger two_requests) both_admitted = Some while_both_run.
Proof. vm_compute. reflexivity. Qed.

Lemma ledger_tracks_calls_witness :
  allocatedResource while_both_run = mkResource 6 3584 1 /\
  CpuCount (allocatedResource while_both_run)
    = wrap 32 (1 + total CpuCount (calls while_both_run)).
Proof.
  split; [reflexivity|].
  assert (Hvalid : valid busy_ledger) by (repeat split; by vm_compute).
  destruct (ledger_tracks_calls busy_ledger two_requests both_admitted
              while_both_run Hvalid serve_both_admitted) as (H & _).
  exact H.
Defined.

(** *** What [Execute] returns, and when it does not *)

(** The command of a call is in a state [executeCommand] can reach, and a
    call that has left returns what [executeCommand] returned. *)
Definition command_consistent (c : call) : Prop :=
  match at_pc c with
  | InCommand _ => exists schedule, Exec.run Exec.init schedule = Some (command c)
  | Left result =>
      Exec.sup (command c) = Exec.Returned result /\
      exists schedule, Exec.run Exec.init schedule = Some (command c)
  | _ => True
  end.

Lemma command_consistent_step ag i m ag' :
  Forall command_consistent (calls ag) -> Execute i m ag = Some ag' ->
  Forall command_consistent (calls ag').
Proof.
  intros Hall Hstep. rewrite Forall_forall in Hall.
  invert_Execute Hstep;
    match goal with H : calls ag !! i = Some ?c |- _ =>
      pose proof (Hall c (list_elem_of_lookup_2 _ _ _ H)) as Hi;
      unfold command_consistent in Hi
    end;
    match goal with H : at_pc _ = _ |- _ => rewrite H in Hi end;
    apply Forall_forall in Hall;
    unfold with_call, plusAllocated, minusAllocated; simpl;
    apply Forall_insert; try done; unfold command_consistent; simpl;
    try done.
  - by exists [].
  - destruct Hi as [schedule Hrun].
    exists (schedule ++ [a]). rewrite run_app, Hrun; simpl.
    by match goal with H : Exec.step _ _ = Some _ |- _ => rewrite H end.
Qed.

Lemma reachable_commands ledger requests schedule ag :
  serve (arrive ledger requests) schedule = Some ag ->
  Forall command_consistent (calls ag).
Proof.
  intros Hserve.
  apply (serve_invariant (fun ag => Forall command_consistent (calls ag))
           (arrive ledger requests)) with (schedule := schedule);
    [| |exact Hserve].
  - unfold arrive; simpl. apply Forall_fmap. by apply Forall_true.
  - intros ag0 i m ag1 H Hstep. by eapply command_consistent_step.
Qed.

Lemma serve_app ag schedule more :
  serve ag (schedule ++ more) =
    match serve ag schedule with
    | Some ag' => serve ag' more
    | None => None
    end.
Proof.
  revert ag. induction schedule as [|[i m] rest IH]; intros ag; simpl; [done|].
  destruct (Execute i m ag); [apply IH|done].
Qed.

Lemma reachable_ledger ledger requests schedule ag :
  valid ledger ->
  serve (arrive ledger requests) schedule = Some ag ->
  ledger_consistent ledger ag /\ log_consistent ag.
Proof.
  intros Hvalid Hserve.
  apply (serve_invariant
           (fun ag => ledger_consistent ledger ag /\ log_consistent ag)
           (arrive ledger requests)) with (schedule := schedule);
    [| |exact Hserve].
  - by apply arrive_consistent.
  - intros ag0 i m ag1 [H1 H2] Hstep. split.
    + by eapply ledger_consistent_step.
    + by eapply log_consistent_step.
Qed.

Lemma total_only axis cs : forall (i : nat) c,
  axis (mkResource 0 0 0) = 0 ->
  cs !! i = Some c ->
  (forall (j : nat) c0, j <> i -> cs !! j = Some c0 -> over c0) ->
  total axis cs = axis (held c).
Proof.
  induction cs as [|c1 cs IH]; intros [|i] c H0 Hi Hothers; simpl in *;
    try done.
  - injection Hi as ->. rewrite (total_idle axis cs H0); [lia|].
    apply Forall_lookup_2. intros j c0 Hj.
    apply over_idle, (Hothers (S j) c0); [lia|done].
  - rewrite (over_idle c1) by (apply (Hothers 0%nat c1); [lia|done]).
    rewrite H0, (IH i c H0 Hi); [lia|].
    intros j c0 Hne Hj. apply (Hothers (S j) c0); [lia|done].
Qed.

(** C1, where the code departs from it.  The plus is made once, at
    admission, and the minus is deferred (line 84), but the deferred
    minus runs only when [executeCommand] returns, and [executeCommand]
    returns only through its own deferred send on [stopChan] (line 135).
    Once the transport has refused a keepalive, [streamPulse] has
    returned (line 254) and nothing receives from [stopChan] any more.
    For a call in that state, after whatever steps of whatever calls:
    the call is still inside [executeCommand]; the plus of its
    allocation is the only adjustment it has made; neither the deferred
    stop nor the return through the deferred minus can be taken; so the
    calls are never all over, and when every other call is over the
    ledger holds its start value plus the allocation of this call. *)
Theorem refused_keepalive_keeps_allocation (ledger : ComputeResource)
    (requests : list ExecutionRequest) (schedule more : list (nat * move))
    (ag ag' : agent) (i : nat) (c : call) (allocated : ComputeResource)
    (e : error) :
  valid ledger ->
  serve (arrive ledger requests) schedule = Some ag ->
  calls ag !! i = Some c ->
  at_pc c = InCommand allocated ->
  Exec.pulse (command c) = Exec.PulseReturned (Some e) ->
  serve ag more = Some ag' ->
  exists c',
    calls ag' !! i = Some c' /\ at_pc c' = InCommand allocated /\
    Exec.pulse (command c') = Exec.PulseReturned (Some e) /\
    adjustments_of i ag' = [plus allocated] /\
    Execute i (InsideCommand Exec.SupStop) ag' = None /\
    Execute i Leave ag' = None /\
    ~ Forall over (calls ag') /\
    ((forall (j : nat) c0, j <> i -> calls ag' !! j = Some c0 -> over c0) ->
     allocatedResource ag' = Plus ledger allocated).
Proof.
  intros Hvalid Hserve Hc Hat Hp Hmore.
  assert (Hreach : Forall command_consistent (calls ag))
    by (by eapply reachable_commands).
  assert (Hserve' : serve (arrive ledger requests) (schedule ++ more) = Some ag')
    by (by rewrite serve_app, Hserve).
  destruct (reachable_ledger _ _ _ _ Hvalid Hserve) as [_ Hlog].
  destruct (reachable_ledger _ _ _ _ Hvalid Hserve') as [(Lc & Lm & Lg) _].
  assert (Hadj : adjustments_of i ag = [plus allocated]).
  { destruct (Hlog i c Hc) as [-> _]. unfold expected. by rewrite Hat. }
  pose (P := fun (a : agent) =>
    Forall command_consistent (calls a) /\
    exists c', calls a !! i = Some c' /\ at_pc c' = InCommand allocated /\
               Exec.pulse (command c') = Exec.PulseReturned (Some e) /\
               adjustments_of i a = adjustments_of i ag).
  assert (HP : P ag').
  { apply (serve_invariant P ag) with (schedule := more); [| |exact Hmore].
    - split; [done|]. exists c. by split_and!.
    - intros ag0 j m ag1 [Hall (c0 & Hc0 & Hat0 & Hp0 & Hadj0)] Hstep.
      split; [by eapply command_consistent_step|].
      assert (Hcc : command_consistent c0).
      { rewrite Forall_forall in Hall. apply Hall.
        by eapply list_elem_of_lookup_2. }
      unfold command_consistent in Hcc. rewrite Hat0 in Hcc.
      destruct Hcc as [sched0 Hrun0].
      destruct (reachable_consistent _ _ Hrun0) as [Hsup _].
      destruct (decide (j = i)) as [->|Hne].
      + invert_Execute Hstep; try congruence;
          unfold with_call, plusAllocated, minusAllocated; simpl; simplify_eq.
        * eexists. rewrite list_lookup_insert_eq by (by eapply lookup_lt_Some).
          split; [done|]. simpl.
          split_and!; [congruence|by eapply failed_pulse_step|done].
        * exfalso. unfold supervisor_consistent in Hsup.
          match goal with H : Exec.sup _ = Exec.Returned _ |- _ =>
            rewrite H in Hsup end.
          rewrite Hp0 in Hsup. by destruct Hsup as [_ [?|?]].
      + assert (Hsame : calls ag1 !! i = Some c0 /\
                        adjustments_of i ag1 = adjustments_of i ag0).
        { invert_Execute Hstep; unfold with_call, plusAllocated, minusAllocated,
            adjustments_of; simpl;
            rewrite ?list_lookup_insert_ne by done; rewrite ?adjustments_snoc;
            repeat case_decide; try done; by rewrite ?app_nil_r. }
        destruct Hsame as [Hl Ha]. exists c0. rewrite Ha. by split_and!. }
  destruct HP as [Hall' (c' & Hc' & Hat' & Hp' & Hadj')].
  assert (Hsup' : forall result, Exec.sup (command c') <> Exec.Returned result).
  { intros result Hret.
    assert (Hcc : command_consistent c').
    { rewrite Forall_forall in Hall'. apply Hall'.
      by eapply list_elem_of_lookup_2. }
    unfold command_consistent in Hcc. rewrite Hat' in Hcc.
    destruct Hcc as [sched' Hrun'].
    destruct (reachable_consistent _ _ Hrun') as [Hsup _].
    unfold supervisor_consistent in Hsup. rewrite Hret, Hp' in Hsup.
    by destruct Hsup as [_ [?|?]]. }
  exists c'. split_and!; try done.
  - by rewrite Hadj'.
  - unfold Execute. rewrite Hc', Hat'. simpl. unfold Exec.stop.
    rewrite Hp'. by destruct (Exec.sup (command c')).
  - unfold Execute. rewrite Hc', Hat'.
    destruct (Exec.sup (command c')) eqn:Hs; try done.
    by destruct (Hsup' result).
  - intros Hover. rewrite Forall_lookup in Hover.
    specialize (Hover i c' Hc'). unfold over in Hover. by rewrite Hat' in Hover.
  - intros Hothers.
    rewrite (total_only CpuCount _ i c' eq_refl Hc' Hothers) in Lc.
    rewrite (total_only MemoryMb _ i c' eq_refl Hc' Hothers) in Lm.
    rewrite (total_only GpuCount _ i c' eq_refl Hc' Hothers) in Lg.
    unfold held in Lc, Lm, Lg. rewrite Hat' in Lc, Lm, Lg.
    unfold Plus. destruct (allocatedResource ag'); simpl in *. congruence.
Qed.

(** Two calls.  The transport refuses the first keepalive of the first;
    its child then exits with status 0, the supervisor takes the exit
    from [errChan] and sends the exit statistics (line 169).  The second
    call is cancelled and leaves.  The first call stands at its deferred
    stop for ever. *)
Definition until_refusal : list (nat * move) :=
  [(0%nat, DoMkdirAll None); (1%nat, DoMkdirAll None);
   (0%nat, Admit); (1%nat, Admit)]
  ++ of_call 0 refused_keepalive.

Definition after_refusal : list (nat * move) :=
  of_call 0 [Exec.ChildExits 0 usage0; Exec.WaitReturns; Exec.WaitReport;
             Exec.SupRecv; Exec.Sup None]
  ++ of_call 1 (handoff ++ [Exec.CtxDone (Err "context canceled");
                            Exec.SupDone; Exec.Sup None; Exec.Sup None;
                            Exec.SupStop])
  ++ [(1%nat, Leave)].

Definition at_refusal : agent :=
  Eval vm_compute in
    default (arrive busy_ledger [])
            (serve (arrive busy_ledger two_requests) until_refusal).

Definition stuck : agent :=
  Eval vm_compute in default (arrive busy_ledger []) (serve at_refusal after_refusal).

Definition call_at_refusal : call :=
  Eval vm_compute in
    default (mkCall (mkExecutionRequest "" "" 0 None) AtMkdirAll Exec.init)
            (calls at_refusal !! 0%nat).

Definition stuck_call : call :=
  Eval vm_compute in
    default (mkCall (mkExecutionRequest "" "" 0 None) AtMkdirAll Exec.init)
            (calls stuck !! 0%nat).

Lemma serve_until_refusal :
  serve (arrive busy_ledger two_requests) until_refusal = Some at_refusal.
Proof. vm_compute. reflexivity. Qed.

Lemma serve_after_refusal : serve at_refusal after_refusal = Some stuck.
Proof. vm_compute. reflexivity. Qed.

Lemma refused_keepalive_keeps_allocation_witness :
  (calls stuck !! 0%nat = Some stuck_call /\
   Exec.sup (command stuck_call) = Exec.AtDeferredStop None /\
   Exec.sent_by Exec.Supervisor (Exec.stream (command stuck_call))
     = [Exec.exit_stats usage0] /\
   adjustments stuck =
     [(0%nat, plus (mkResource 2 1024 0)); (1%nat, plus (mkResource 3 2048 1));
      (1%nat, minus (mkResource 3 2048 1))] /\
   allocatedResource stuck = mkResource 3 1536 0) /\
  exists c',
    calls stuck !! 0%nat = Some c' /\
    at_pc c' = InCommand (mkResource 2 1024 0) /\
    Exec.pulse (command c')
      = Exec.PulseReturned
          (Some (Errorf "Failed to send empty response: %v\n"
                   (Err "transport is closing"))) /\
    adjustments_of 0 stuck = [plus (mkResource 2 1024 0)] /\
    Execute 0 (InsideCommand Exec.SupStop) stuck = None /\
    Execute 0 Leave stuck = None /\
    ~ Forall over (calls stuck) /\
    allocatedResource stuck = Plus busy_ledger (mkResource 2 1024 0).
Proof.
  split; [by split_and!|].
  assert (Hvalid : valid busy_ledger) by (repeat split; by vm_compute).
  destruct (refused_keepalive_keeps_allocation busy_ledger two_requests
              until_refusal after_refusal at_refusal stuck 0%nat
              call_at_refusal (mkResource 2 1024 0)
              (Errorf "Failed to send empty response: %v\n"
                 (Err "transport is closing"))
              Hvalid serve_until_refusal eq_refl eq_refl eq_refl
              serve_after_refusal)
    as (c' & H1 & H2 & H3 & H4 & H5 & H6 & H7 & H8).
  exists c'. repeat (split; [assumption|]).
  apply H8. intros [|[|j]] c0 Hne Hj; [done| |done].
  injection Hj as <-. exact I.
Defined.

End Agent_facts.

Section Upload_facts.
Import Upload.

Variable path_Join : list string -> string.
Variable filepath_Join : list string -> string.
Variable checksum : bytes -> Z.
Variable Option_Dir : string.

Let toFile := target path_Join filepath_Join Option_Dir.
Let handler := SendFileResource path_Join filepath_Join checksum Option_Dir.

Definition writes_succeed (n : nat) (w : world) : Prop :=
  Forall (fun a => a = None) (take n (write_faults w)).

Lemma append_append f a b (m : gmap string bytes) :
  append f b (append f a m) = append f (a ++ b) m.
Proof.
  unfold append. rewrite lookup_insert_eq, insert_insert_eq; simpl.
  by rewrite app_assoc.
Qed.

Lemma receive_content_spec f coming : forall w c,
  files w !! f = Some c ->
  writes_succeed (length (leading_chunks coming)) w ->
  fst (receive_content f coming w) = stream_end coming /\
  files (snd (receive_content f coming w)) =
    <[f := c ++ concat (leading_chunks coming)]> (files w) /\
  outbound (snd (receive_content f coming w)) = outbound w.
Proof.
  induction coming as [|[request|e] rest IH]; intros w c Hc Hw; simpl.
  - rewrite app_nil_r. by rewrite insert_id.
  - unfold Write; simpl. unfold writes_succeed in Hw; simpl in Hw.
    destruct (write_faults w) as [|[[n e]|] faults] eqn:Hfaults; simpl in *.
    + edestruct (IH (with_files (append f (Content request) (files w))
                       (with_inbound rest w)) (c ++ Content request))
        as (Ra & Rb & Rc); simpl.
      * unfold append. by rewrite Hc, lookup_insert_eq.
      * unfold writes_succeed; simpl. rewrite Hfaults, take_nil. constructor.
      * rewrite Ra, Rb, Rc; simpl. unfold append.
        by rewrite Hc, insert_insert_eq, app_assoc.
    + by inversion Hw.
    + inversion Hw; subst.
      edestruct (IH (with_write_faults faults
                       (with_files (append f (Content request) (files w))
                          (with_inbound rest w))) (c ++ Content request))
        as (Ra & Rb & Rc); simpl.
      * unfold append. by rewrite Hc, lookup_insert_eq.
      * done.
      * rewrite Ra, Rb, Rc; simpl. unfold append.
        by rewrite Hc, insert_insert_eq, app_assoc.
  - rewrite app_nil_r. destruct (is_EOF e); simpl; by rewrite insert_id.
Qed.

(** C3.  When the file at the target path exists and its checksum is the
    hash of the first message, and the transport takes the
    acknowledgement, the handler answers [already_present = true]
    ([ok = true]) and returns nil; it has taken the metadata message only
    from the inbound stream and has neither opened nor written a file. *)
Theorem SendFileResource_already_present (w : world)
    (request : FileResourceRequest) (rest : list (FileResourceRequest + error))
    (content : bytes) :
  inbound w = inl request :: rest ->
  files w !! toFile request = Some content ->
  read_fault w = None ->
  checksum content = Hash request ->
  send_fault w = None ->
  fst (handler w) = None /\
  outbound (snd (handler w)) = outbound w ++ [mkResponse true true] /\
  inbound (snd (handler w)) = rest /\
  files (snd (handler w)) = files w /\
  write_faults (snd (handler w)) = write_faults w.
Proof.
  intros Hin Hfile Hread Hsum Hsend.
  unfold handler, SendFileResource, Recv. rewrite Hin.
  unfold MkdirAll; simpl.
  assert (Hh : forall w', files w' = files w -> read_fault w' = read_fault w ->
    GenerateFileHash checksum (toFile request) w' = inl (Hash request)).
  { intros w' Hf Hr. unfold GenerateFileHash.
    by rewrite Hf, Hfile, Hr, Hread, Hsum. }
  destruct (mkdir_fault w); fold (toFile request);
    rewrite Hh by done; rewrite Z.eqb_refl;
    unfold Send; simpl; by rewrite Hsend.
Qed.

(** C8.  When the target file does not exist, or exists and cannot be
    read, the acknowledgement carries [already_present = false].  With a
    transport that takes it, a successful open and successful writes, the
    file then holds exactly the content of the following messages in
    arrival order, whatever it held before, and the handler returns nil
    at the client's half-close or the receive error that ended the
    stream. *)
Theorem SendFileResource_receives (w : world)
    (request : FileResourceRequest) (rest : list (FileResourceRequest + error)) :
  inbound w = inl request :: rest ->
  files w !! toFile request = None \/ is_Some (read_fault w) ->
  send_fault w = None ->
  open_fault w = None ->
  writes_succeed (length (leading_chunks rest)) w ->
  outbound (snd (handler w)) = outbound w ++ [mkResponse false true] /\
  files (snd (handler w)) !! toFile request =
    Some (concat (leading_chunks rest)) /\
  fst (handler w) = stream_end rest.
Proof.
  intros Hin Hno Hsend Hopen Hwr.
  unfold handler, SendFileResource, Recv. rewrite Hin.
  unfold MkdirAll; simpl.
  assert (Hh : forall w', files w' = files w -> read_fault w' = read_fault w ->
    exists e, GenerateFileHash checksum (toFile request) w' = inr e).
  { intros w' Hf Hr. unfold GenerateFileHash. rewrite Hf, Hr.
    destruct Hno as [->|[e ->]]; [by eexists|].
    destruct (files w !! toFile request); by eexists. }
  assert (Hgo : forall w', files w' = files w ->
    inbound w' = rest -> write_faults w' = write_faults w ->
    let r := receive_content (toFile request) rest
               (with_files (<[toFile request := []]> (files w')) w') in
    outbound (snd r) = outbound w' /\
    files (snd r) !! toFile request = Some (concat (leading_chunks rest)) /\
    fst r = stream_end rest).
  { intros w' Hf Hi Hw'.
    destruct (receive_content_spec (toFile request) rest
                (with_files (<[toFile request := []]> (files w')) w') [])
      as (H1 & H2 & H3); simpl.
    - apply lookup_insert_eq.
    - unfold writes_succeed; simpl. by rewrite Hw'.
    - simpl in *. rewrite H1, H2, H3. by rewrite lookup_insert_eq. }
  destruct (mkdir_fault w); fold (toFile request);
    (match goal with
     | |- context [GenerateFileHash _ _ ?w'] =>
         destruct (Hh w') as [e' ->]; [done..|]
     end);
    unfold Send; simpl; rewrite Hsend; simpl;
    unfold OpenFile; simpl; rewrite Hopen; simpl;
    (match goal with
     | |- context [receive_content _ _ (with_files _ ?w')] =>
         destruct (Hgo w') as (H1 & H2 & H3); try done
     end);
    simpl in *; by rewrite H1, H2, H3.
Qed.

(** *** The result of [os.MkdirAll] *)

(** Two worlds that differ at most in what [os.MkdirAll] answered and
    made. *)
Definition same_but_dirs (w1 w2 : world) : Prop :=
  inbound w1 = inbound w2 /\ outbound w1 = outbound w2 /\
  send_fault w1 = send_fault w2 /\ files w1 = files w2 /\
  read_fault w1 = read_fault w2 /\ open_fault w1 = open_fault w2 /\
  write_faults w1 = write_faults w2.

Ltac same_dirs := unfold same_but_dirs; simpl; split_and!; congruence.

Lemma receive_content_same_but_dirs f coming : forall w1 w2,
  same_but_dirs w1 w2 ->
  fst (receive_content f coming w1) = fst (receive_content f coming w2) /\
  same_but_dirs (snd (receive_content f coming w1))
                (snd (receive_content f coming w2)).
Proof.
  induction coming as [|[request|e] rest IH];
    intros w1 w2 (Hi & Ho & Hs & Hf & Hr & Hop & Hw); simpl.
  - split; [done|]. same_dirs.
  - unfold Write; simpl. rewrite Hw, Hf.
    destruct (write_faults w2) as [|[[n e]|] faults] eqn:Hw2; simpl.
    + apply IH. same_dirs.
    + split; [done|]. same_dirs.
    + apply IH. same_dirs.
  - destruct (is_EOF e); (split; [done|]); same_dirs.
Qed.

Lemma SendFileResource_same_but_dirs w1 w2 :
  same_but_dirs w1 w2 ->
  fst (handler w1) = fst (handler w2) /\
  same_but_dirs (snd (handler w1)) (snd (handler w2)).
Proof.
  intros (Hi & Ho & Hs & Hf & Hr & Hop & Hw).
  unfold handler, SendFileResource, Recv. rewrite Hi.
  destruct (inbound w2) as [|[request|e] rest] eqn:Hi2; simpl;
    [split; [done|]; same_dirs| |split; [done|]; same_dirs].
  unfold GenerateFileHash, MkdirAll; simpl.
  destruct (mkdir_fault w1), (mkdir_fault w2); simpl;
    rewrite Hf, Hr;
    (destruct (match files w2 !! _ with Some _ => _ | None => _ end)
       as [h|e']; [destruct (Z.eqb h (Hash request))|]);
    unfold Send; simpl; rewrite Hs;
    destruct (send_fault w2) eqn:Hs2; simpl;
    try (split; [done|]; same_dirs);
    unfold OpenFile; simpl; rewrite Hop;
    destruct (open_fault w2) eqn:Hop2; simpl;
    try (split; [done|]; same_dirs);
    apply receive_content_same_but_dirs; same_dirs.
Qed.

Lemma receive_content_outbound f coming : forall w,
  outbound (snd (receive_content f coming w)) = outbound w.
Proof.
  induction coming as [|[request|e] rest IH]; intros w; simpl; [done| |].
  - unfold Write; simpl.
    destruct (write_faults w) as [|[[n e]|] faults]; simpl;
      [by rewrite IH|done|by rewrite IH].
  - by destruct (is_EOF e).
Qed.

(** C6 as stated, for the upload: when the directory cannot be made the
    call fails and has not gone on, so no acknowledgement was sent. *)
Definition mkdir_failure_is_fatal : Prop :=
  forall w e request rest,
    mkdir_fault w = Some e ->
    inbound w = inl request :: rest ->
    is_Some (fst (handler w)) /\ outbound (snd (handler w)) = outbound w.

(** C6, amended.  Neither caller looks at the result of [os.MkdirAll].
    The upload returns the same result, sends the same responses and
    leaves the same files and inbound stream whether the directory could
    be made or not; with the metadata received and a transport that takes
    the acknowledgement it has sent the acknowledgement with [ok = true]
    although the directory could not be made.  [Execute] takes the same
    step for a failure as for a success, and goes on to the admission
    with the ledger untouched. *)
Theorem MkdirAll_failure_is_dropped (w : world) (e : error) :
  (fst (handler (with_mkdir_fault (Some e) w))
     = fst (handler (with_mkdir_fault None w)) /\
   outbound (snd (handler (with_mkdir_fault (Some e) w)))
     = outbound (snd (handler (with_mkdir_fault None w))) /\
   files (snd (handler (with_mkdir_fault (Some e) w)))
     = files (snd (handler (with_mkdir_fault None w))) /\
   inbound (snd (handler (with_mkdir_fault (Some e) w)))
     = inbound (snd (handler (with_mkdir_fault None w)))) /\
  (forall request rest,
     inbound w = inl request :: rest ->
     send_fault w = None ->
     exists present,
       outbound (snd (handler (with_mkdir_fault (Some e) w)))
       = outbound w ++ [mkResponse present true]) /\
  (forall ag i,
     Agent.Execute i (Agent.DoMkdirAll (Some e)) ag
     = Agent.Execute i (Agent.DoMkdirAll None) ag) /\
  (forall ag (i : nat) c,
     Agent.calls ag !! i = Some c ->
     Agent.at_pc c = Agent.AtMkdirAll ->
     exists ag',
       Agent.Execute i (Agent.DoMkdirAll (Some e)) ag = Some ag' /\
       Agent.calls ag' !! i
         = Some (Agent.mkCall (Agent.request c) Agent.AtAdmission
                   (Agent.command c)) /\
       Agent.allocatedResource ag' = Agent.allocatedResource ag).
Proof.
  split; [|split; [|split]].
  - destruct (SendFileResource_same_but_dirs
                (with_mkdir_fault (Some e) w) (with_mkdir_fault None w))
      as (Hres & Hi & Ho & _ & Hf & _); [same_dirs|].
    by split_and!.
  - intros request rest Hin Hsend.
    unfold handler, SendFileResource, Recv; simpl. rewrite Hin; simpl.
    unfold MkdirAll; simpl.
    match goal with
    | |- context [Send (mkResponse ?b true) _] => exists b; generalize b
    end.
    intros present. unfold Send; simpl. rewrite Hsend; simpl.
    destruct present; [done|].
    unfold OpenFile; simpl. destruct (open_fault w); simpl; [done|].
    by rewrite receive_content_outbound.
  - intros ag i. unfold Agent.Execute.
    destruct (Agent.calls ag !! i) as [c|]; [|done].
    by destruct (Agent.at_pc c).
  - intros ag i c Hc Hat. eexists. unfold Agent.Execute. rewrite Hc, Hat.
    split; [reflexivity|]. split; [|done]. simpl.
    apply list_lookup_insert_eq. by eapply lookup_lt_Some.
Qed.

End Upload_facts.

Section Upload_scenarios.
Import Upload.

(** Stand-ins for the Go library and the checksum in concrete runs. *)
Definition slash_join (parts : list string) : string := String.concat "/" parts.
Definition byte_count (content : bytes) : Z := Z.of_nat (length content).

Definition words : FileResourceRequest := mkRequest "words.txt" "stage" 2 7 [].
Definition chunk (content : bytes) : FileResourceRequest :=
  mkRequest "" "" 0 0 content.

Definition words_path : string := "/data/7/stage/words.txt".

(** The file is there already, with the announced hash. *)
Definition staged : world :=
  mkWorld [inl words; inl (chunk [Byte.x68; Byte.x69])] [] None [] None
          {[ words_path := [Byte.x6f; Byte.x6b] ]} None None [].

Lemma SendFileResource_already_present_witness :
  fst (SendFileResource slash_join slash_join byte_count "/data" staged) = None /\
  outbound (snd (SendFileResource slash_join slash_join byte_count "/data" staged))
    = [mkResponse true true] /\
  inbound (snd (SendFileResource slash_join slash_join byte_count "/data" staged))
    = [inl (chunk [Byte.x68; Byte.x69])] /\
  files (snd (SendFileResource slash_join slash_join byte_count "/data" staged))
    = files staged /\
  write_faults (snd (SendFileResource slash_join slash_join byte_count "/data" staged))
    = [].
Proof.
  apply (SendFileResource_already_present slash_join slash_join byte_count "/data"
           staged words [inl (chunk [Byte.x68; Byte.x69])]
           [Byte.x6f; Byte.x6b]);
    reflexivity.
Defined.

(** The file is not there; the client sends it in two chunks. *)
Definition fresh : world :=
  mkWorld [inl words; inl (chunk [Byte.x68; Byte.x69]); inl (chunk [Byte.x21])]
          [] None [] None ∅ None None [].

Lemma SendFileResource_receives_witness :
  outbound (snd (SendFileResource slash_join slash_join byte_count "/data" fresh))
    = [mkResponse false true] /\
  files (snd (SendFileResource slash_join slash_join byte_count "/data" fresh))
    !! words_path = Some [Byte.x68; Byte.x69; Byte.x21] /\
  fst (SendFileResource slash_join slash_join byte_count "/data" fresh) = None.
Proof.
  apply (SendFileResource_receives slash_join slash_join byte_count "/data"
           fresh words
           [inl (chunk [Byte.x68; Byte.x69]); inl (chunk [Byte.x21])]).
  - reflexivity.
  - left. reflexivity.
  - reflexivity.
  - reflexivity.
  - constructor.
Defined.

(** The directory cannot be made, so that the target cannot be opened. *)
Definition unwritable : world :=
  mkWorld [inl words; inl (chunk [Byte.x68; Byte.x69])] [] None []
          (Some (Err "mkdir /data/7: permission denied"))
          ∅ None
          (Some (Err "open /data/7/stage/words.txt: no such file or directory"))
          [].

(** The handler has acknowledged, with [ok = true], before the open
    fails. *)
Lemma acknowledged_without_directory :
  ~ mkdir_failure_is_fatal slash_join slash_join byte_count "/data".
Proof.
  intros Hfatal.
  destruct (Hfatal unwritable (Err "mkdir /data/7: permission denied")
              words [inl (chunk [Byte.x68; Byte.x69])] eq_refl eq_refl)
    as [_ Hnone].
  discriminate Hnone.
Qed.

Lemma MkdirAll_failure_is_dropped_witness :
  (exists present,
     outbound (snd (SendFileResource slash_join slash_join byte_count "/data"
                      unwritable))
     = [mkResponse present true]) /\
  exists ag',
    Agent.Execute 0 (Agent.DoMkdirAll
                       (Some (Err "mkdir /data/7: permission denied")))
      (Agent.arrive busy_ledger two_requests) = Some ag' /\
    Agent.calls ag' !! 0%nat
      = Some (Agent.mkCall
                (Agent.mkExecutionRequest "count" "stage" 7
                   (Some (Agent.mkResource 2 1024 0)))
                Agent.AtAdmission Exec.init) /\
    Agent.allocatedResource ag' = busy_ledger.
Proof.
  destruct (MkdirAll_failure_is_dropped slash_join slash_join byte_count "/data"
              unwritable (Err "mkdir /data/7: permission denied"))
    as (_ & Hack & _ & Hgo).
  split.
  - apply (Hack words [inl (chunk [Byte.x68; Byte.x69])]); reflexivity.
  - apply (Hgo (Agent.arrive busy_ledger two_requests) 0%nat
             (Agent.mkCall
                (Agent.mkExecutionRequest "count" "stage" 7
                   (Some (Agent.mkResource 2 1024 0)))
                Agent.AtMkdirAll Exec.init)); reflexivity.
Defined.

End Upload_scenarios.

Section Upload_edges.
Import Upload.

Variable path_Join : list string -> string.
Variable filepath_Join : list string -> string.
Variable checksum : bytes -> Z.
Variable Option_Dir : string.

Let toFile := target path_Join filepath_Join Option_Dir.
Let handler := SendFileResource path_Join filepath_Join checksum Option_Dir.

(** The file has to be received: the target is absent, cannot be read, or
    its checksum is not the announced hash (lines 41-44 leave
    [hasSameHash] false). *)
Definition must_receive (request : FileResourceRequest) (w : world) : Prop :=
  forall content,
    files w !! toFile request = Some content ->
    read_fault w = None ->
    checksum content <> Hash request.

(** The world after lines 32-38: the metadata message taken, the
    directory asked for. *)
Definition after_metadata (request : FileResourceRequest)
    (rest : list (FileResourceRequest + error)) (w : world) : world :=
  snd (MkdirAll (resolve_dir path_Join Option_Dir request) (with_inbound rest w)).

(** The world when the loop of lines 59-72 is entered. *)
Definition at_loop (request : FileResourceRequest)
    (rest : list (FileResourceRequest + error)) (w : world) : world :=
  with_files (<[toFile request := []]> (files w))
    (with_outbound (outbound w ++ [mkResponse false true])
       (after_metadata request rest w)).

Lemma hasSameHash_false request w w' :
  must_receive request w ->
  files w' = files w -> read_fault w' = read_fault w ->
  match GenerateFileHash checksum (toFile request) w' with
  | inl h => Z.eqb h (Hash request)
  | inr _ => false
  end = false.
Proof.
  intros Hmust Hf Hr. unfold GenerateFileHash. rewrite Hf, Hr.
  destruct (files w !! toFile request) as [content|] eqn:Hc; [|done].
  destruct (read_fault w) eqn:Hrf; [done|].
  apply Z.eqb_neq. by apply Hmust.
Qed.

Lemma hasSameHash_true request w w' content :
  files w !! toFile request = Some content ->
  read_fault w = None ->
  checksum content = Hash request ->
  files w' = files w -> read_fault w' = read_fault w ->
  match GenerateFileHash checksum (toFile request) w' with
  | inl h => Z.eqb h (Hash request)
  | inr _ => false
  end = true.
Proof.
  intros Hc Hrf Hsum Hf Hr. unfold GenerateFileHash.
  rewrite Hf, Hr, Hc, Hrf, Hsum. apply Z.eqb_refl.
Qed.

Lemma at_loop_fields request rest w :
  files (at_loop request rest w) = <[toFile request := []]> (files w) /\
  outbound (at_loop request rest w) = outbound w ++ [mkResponse false true] /\
  write_faults (at_loop request rest w) = write_faults w.
Proof.
  unfold at_loop, after_metadata, MkdirAll; simpl.
  by destruct (mkdir_fault w).
Qed.

Lemma handler_enters_loop w request rest :
  inbound w = inl request :: rest ->
  must_receive request w ->
  send_fault w = None ->
  open_fault w = None ->
  handler w = receive_content (toFile request) rest (at_loop request rest w).
Proof.
  intros Hin Hmust Hsend Hopen.
  unfold handler, SendFileResource, Recv, at_loop, after_metadata.
  rewrite Hin. unfold MkdirAll; simpl.
  destruct (mkdir_fault w); fold (toFile request);
    rewrite (hasSameHash_false request w) by done;
    unfold Send; simpl; rewrite Hsend; simpl;
    unfold OpenFile; simpl; by rewrite Hopen.
Qed.

Lemma handler_skips w request rest content :
  inbound w = inl request :: rest ->
  files w !! toFile request = Some content ->
  read_fault w = None ->
  checksum content = Hash request ->
  send_fault w = None ->
  handler w =
    (None, with_outbound (outbound w ++ [mkResponse true true])
             (after_metadata request rest w)).
Proof.
  intros Hin Hc Hrf Hsum Hsend.
  unfold handler, SendFileResource, Recv, after_metadata.
  rewrite Hin. unfold MkdirAll; simpl.
  destruct (mkdir_fault w); fold (toFile request);
    rewrite (hasSameHash_true request w _ content) by done;
    unfold Send; simpl; by rewrite Hsend.
Qed.

Lemma receive_content_other f coming : forall w g,
  g <> f ->
  files (snd (receive_content f coming w)) !! g = files w !! g.
Proof.
  induction coming as [|[request|e] rest IH]; intros w g Hg; simpl; [done| |].
  - unfold Write; simpl.
    destruct (write_faults w) as [|[[n e]|] faults]; simpl;
      rewrite ?IH by done; simpl; unfold append; by rewrite lookup_insert_ne.
  - by destruct (is_EOF e).
Qed.

Lemma receive_content_inbound f coming : forall w,
  inbound (snd (receive_content f coming w)) `suffix_of` coming.
Proof.
  induction coming as [|[request|e] rest IH]; intros w; simpl; [done| |].
  - unfold Write; simpl.
    destruct (write_faults w) as [|[[n e]|] faults]; simpl;
      try (apply suffix_cons_r, IH); by apply suffix_cons_r.
  - destruct (is_EOF e); by apply suffix_cons_r.
Qed.

Lemma receive_content_write_failure f coming : forall w c k n e data,
  files w !! f = Some c ->
  writes_succeed k w ->
  write_faults w !! k = Some (Some (n, e)) ->
  leading_chunks coming !! k = Some data ->
  fst (receive_content f coming w) = Some e /\
  files (snd (receive_content f coming w)) =
    <[f := c ++ concat (take k (leading_chunks coming)) ++ take n data]> (files w) /\
  inbound (snd (receive_content f coming w)) = drop (S k) coming.
Proof.
  induction coming as [|[request|e0] rest IH];
    intros w c k n e data Hc Hw Hk Hdata; simpl in *; try done.
  unfold Write; simpl. unfold writes_succeed in Hw.
  destruct k as [|k]; simpl in *.
  - destruct (write_faults w) as [|[[n' e']|] faults]; cbn in Hk, Hdata;
      simplify_eq; simpl.
    unfold append. by rewrite Hc, drop_0.
  - destruct (write_faults w) as [|[[n' e']|] faults] eqn:Hfaults;
      simpl in *; try done; [by inversion Hw|].
    inversion Hw; subst.
    edestruct (IH (with_write_faults faults
                     (with_files (append f (Content request) (files w))
                        (with_inbound rest w)))
                 (c ++ Content request) k n e data) as (Ra & Rb & Rc); simpl;
      [unfold append; by rewrite Hc, lookup_insert_eq|done..|].
    rewrite Ra, Rb, Rc. unfold append; simpl.
    by rewrite Hc, insert_insert_eq, <- !app_assoc.
Qed.

(** Whatever the stream and the file system answer, the handler changes
    no file but the target named by the first message: every other path
    holds after the call what it held before, and without a first message
    no file changes at all. *)
Theorem SendFileResource_touches_only_target (w : world) (g : string) :
  (forall request rest, inbound w = inl request :: rest -> g <> toFile request) ->
  files (snd (handler w)) !! g = files w !! g.
Proof.
  intros Hg. unfold handler, SendFileResource, Recv.
  destruct (inbound w) as [|[request|e] rest] eqn:Hin; simpl; [done| |done].
  specialize (Hg request rest eq_refl). fold (toFile request).
  unfold MkdirAll, GenerateFileHash, Send, OpenFile; simpl.
  destruct (mkdir_fault w); simpl;
    (destruct (match files w !! _ with Some _ => _ | None => _ end)
       as [h|e']; [destruct (Z.eqb h (Hash request))|]);
    destruct (send_fault w); simpl; try done;
    destruct (open_fault w); simpl; try done;
    rewrite receive_content_other by done; simpl;
    by rewrite lookup_insert_ne.
Qed.

(** One call sends at most one response, and every response it sends
    carries [ok = true]: the responses the transport has taken afterwards
    are those before the call, or those followed by one acknowledgement. *)
Theorem SendFileResource_answers_at_most_once (w : world) :
  outbound (snd (handler w)) = outbound w \/
  exists present,
    outbound (snd (handler w)) = outbound w ++ [mkResponse present true].
Proof.
  unfold handler, SendFileResource, Recv.
  destruct (inbound w) as [|[request|e] rest] eqn:Hin; simpl; [by left| |by left].
  unfold MkdirAll, GenerateFileHash, Send, OpenFile; simpl.
  destruct (mkdir_fault w); simpl;
    (destruct (match files w !! _ with Some _ => _ | None => _ end)
       as [h|e']; [destruct (Z.eqb h (Hash request))|]);
    destruct (send_fault w); simpl; try (by left);
    try (right; by eexists);
    destruct (open_fault w); simpl; try (right; by eexists);
    rewrite receive_content_outbound; simpl; right; by eexists.
Qed.

(** The handler answers [already_present = true] only for a file that is
    on disk, readable, with the announced checksum; it then returns nil
    and has changed no file. *)
Theorem already_present_is_sound (w : world) (request : FileResourceRequest)
    (rest : list (FileResourceRequest + error)) :
  inbound w = inl request :: rest ->
  outbound (snd (handler w)) = outbound w ++ [mkResponse true true] ->
  fst (handler w) = None /\
  files (snd (handler w)) = files w /\
  exists content,
    files w !! toFile request = Some content /\
    read_fault w = None /\
    checksum content = Hash request.
Proof.
  intros Hin. unfold handler, SendFileResource, Recv. rewrite Hin.
  fold (toFile request).
  unfold MkdirAll, GenerateFileHash, Send, OpenFile; simpl.
  assert (Hno : forall l : list FileResourceResponse, l <> l ++ [mkResponse true true]).
  { intros l H. apply (f_equal length) in H. rewrite length_app in H.
    simpl in H. lia. }
  destruct (mkdir_fault w); simpl;
    destruct (files w !! toFile request) as [content|] eqn:Hc;
    try destruct (read_fault w) eqn:Hrf;
    try destruct (Z.eqb (checksum content) (Hash request)) eqn:Hsum;
    destruct (send_fault w); simpl;
    try (intros H; by apply Hno in H);
    try (intros _; split_and!; try done; exists content;
         split_and!; try done; by apply Z.eqb_eq);
    destruct (open_fault w); simpl;
    rewrite ?receive_content_outbound; simpl;
    intros H; by apply app_inv_head in H.
Qed.

(** When the transport refuses the acknowledgement the handler returns
    the transport's error at once: the target is not opened, so a file
    that was there keeps its content, and no content message is taken
    from the stream. *)
Theorem send_failure_leaves_file (w : world) (request : FileResourceRequest)
    (rest : list (FileResourceRequest + error)) (e : error) :
  inbound w = inl request :: rest ->
  send_fault w = Some e ->
  fst (handler w) = Some e /\
  outbound (snd (handler w)) = outbound w /\
  files (snd (handler w)) = files w /\
  inbound (snd (handler w)) = rest.
Proof.
  intros Hin Hsend. unfold handler, SendFileResource, Recv. rewrite Hin.
  unfold MkdirAll, Send; simpl.
  destruct (mkdir_fault w); simpl; by rewrite Hsend.
Qed.

(** When the target cannot be opened the handler returns the error of
    [os.OpenFile] after it has acknowledged with [already_present =
    false]; no file has changed and no content message was taken. *)
Theorem open_failure_follows_acknowledgement (w : world)
    (request : FileResourceRequest)
    (rest : list (FileResourceRequest + error)) (e : error) :
  inbound w = inl request :: rest ->
  must_receive request w ->
  send_fault w = None ->
  open_fault w = Some e ->
  fst (handler w) = Some e /\
  outbound (snd (handler w)) = outbound w ++ [mkResponse false true] /\
  files (snd (handler w)) = files w /\
  inbound (snd (handler w)) = rest.
Proof.
  intros Hin Hmust Hsend Hopen. unfold handler, SendFileResource, Recv.
  rewrite Hin. unfold MkdirAll; simpl.
  destruct (mkdir_fault w); fold (toFile request);
    rewrite (hasSameHash_false request w) by done;
    unfold Send; simpl; rewrite Hsend; simpl;
    unfold OpenFile; simpl; by rewrite Hopen.
Qed.

(** When the [k]-th write is the first to fail, after writing [n] bytes
    of its chunk, the handler returns the error of that write.  The
    target is left truncated to what was written: the [k] chunks before,
    then the first [n] bytes of the failing chunk.  The messages after
    the failing chunk stay in the stream. *)
Theorem write_failure_leaves_partial_file (w : world)
    (request : FileResourceRequest)
    (rest : list (FileResourceRequest + error))
    (k n : nat) (e : error) (data : bytes) :
  inbound w = inl request :: rest ->
  must_receive request w ->
  send_fault w = None ->
  open_fault w = None ->
  writes_succeed k w ->
  write_faults w !! k = Some (Some (n, e)) ->
  leading_chunks rest !! k = Some data ->
  fst (handler w) = Some e /\
  files (snd (handler w)) !! toFile request =
    Some (concat (take k (leading_chunks rest)) ++ take n data) /\
  inbound (snd (handler w)) = drop (S k) rest /\
  outbound (snd (handler w)) = outbound w ++ [mkResponse false true].
Proof.
  intros Hin Hmust Hsend Hopen Hw Hk Hdata.
  rewrite (handler_enters_loop w request rest) by done.
  destruct (at_loop_fields request rest w) as (Lf & Lo & Lw).
  destruct (receive_content_write_failure (toFile request) rest
              (at_loop request rest w) [] k n e data) as (Ra & Rb & Rc).
  - rewrite Lf. apply lookup_insert_eq.
  - unfold writes_succeed. by rewrite Lw.
  - by rewrite Lw.
  - done.
  - rewrite Ra, Rb, Rc, receive_content_outbound, Lo.
    by rewrite lookup_insert_eq.
Qed.

(** A target that is on disk with another checksum than the announced one
    is replaced: the acknowledgement says [already_present = false], the
    old content is gone, and with successful writes the target holds the
    content of the messages that followed, every other file being as
    before. *)
Theorem stale_file_is_replaced (w : world) (request : FileResourceRequest)
    (rest : list (FileResourceRequest + error)) (old : bytes) :
  inbound w = inl request :: rest ->
  files w !! toFile request = Some old ->
  checksum old <> Hash request ->
  send_fault w = None ->
  open_fault w = None ->
  writes_succeed (length (leading_chunks rest)) w ->
  fst (handler w) = stream_end rest /\
  outbound (snd (handler w)) = outbound w ++ [mkResponse false true] /\
  files (snd (handler w)) =
    <[toFile request := concat (leading_chunks rest)]> (files w).
Proof.
  intros Hin Hold Hsum Hsend Hopen Hw.
  assert (Hmust : must_receive request w).
  { intros content Hc _. congruence. }
  rewrite (handler_enters_loop w request rest) by done.
  destruct (at_loop_fields request rest w) as (Lf & Lo & Lw).
  destruct (receive_content_spec (toFile request) rest
              (at_loop request rest w) []) as (Ra & Rb & Rc).
  - rewrite Lf. apply lookup_insert_eq.
  - unfold writes_succeed. by rewrite Lw.
  - rewrite Ra, Rb, Rc, Lo, Lf. by rewrite insert_insert_eq.
Qed.

(** An upload followed by a second upload of the same file.  When the
    first call has received the file, and the checksum of what it wrote
    is the announced hash, a later call with the same first message finds
    the file, answers [already_present = true], returns nil, and neither
    changes a file nor takes a content message. *)
Theorem second_upload_is_skipped (w w2 : world)
    (request : FileResourceRequest)
    (rest rest2 : list (FileResourceRequest + error)) :
  inbound w = inl request :: rest ->
  must_receive request w ->
  send_fault w = None ->
  open_fault w = None ->
  writes_succeed (length (leading_chunks rest)) w ->
  checksum (concat (leading_chunks rest)) = Hash request ->
  files w2 = files (snd (handler w)) ->
  inbound w2 = inl request :: rest2 ->
  read_fault w2 = None ->
  send_fault w2 = None ->
  fst (handler w2) = None /\
  outbound (snd (handler w2)) = outbound w2 ++ [mkResponse true true] /\
  files (snd (handler w2)) = files w2 /\
  inbound (snd (handler w2)) = rest2.
Proof.
  intros Hin Hmust Hsend Hopen Hw Hsum Hfiles Hin2 Hread2 Hsend2.
  rewrite (handler_enters_loop w request rest) in Hfiles by done.
  destruct (at_loop_fields request rest w) as (Lf & Lo & Lw).
  destruct (receive_content_spec (toFile request) rest
              (at_loop request rest w) []) as (_ & Rb & _).
  - rewrite Lf. apply lookup_insert_eq.
  - unfold writes_succeed. by rewrite Lw.
  - rewrite Rb in Hfiles; simpl in Hfiles.
    rewrite (handler_skips w2 request rest2 (concat (leading_chunks rest)));
      try done.
    + unfold after_metadata, MkdirAll; simpl. by destruct (mkdir_fault w2).
    + rewrite Hfiles. apply lookup_insert_eq.
Qed.

(** The handler takes messages from the front of the stream only: what
    is left of the inbound stream after the call is a suffix of what was
    there before. *)
Theorem SendFileResource_takes_a_prefix (w : world) :
  inbound (snd (handler w)) `suffix_of` inbound w.
Proof.
  unfold handler, SendFileResource, Recv.
  destruct (inbound w) as [|[request|e] rest] eqn:Hin; simpl;
    [by rewrite Hin| |by apply suffix_cons_r].
  unfold MkdirAll, GenerateFileHash, Send, OpenFile; simpl.
  destruct (mkdir_fault w); simpl;
    (destruct (match files w !! _ with Some _ => _ | None => _ end)
       as [h|e']; [destruct (Z.eqb h (Hash request))|]);
    destruct (send_fault w); simpl; try (by apply suffix_cons_r);
    destruct (open_fault w); simpl; try (by apply suffix_cons_r);
    apply suffix_cons_r, receive_content_inbound.
Qed.

(** A stream that ends, or fails, before the metadata message: the
    handler returns the error of the first [stream.Recv] as it is, so
    that [io.EOF] itself is the result when the client sent nothing
    (inside the loop the same [io.EOF] ends the call with nil).  Nothing
    is sent and no file changes. *)
Theorem first_receive_error_is_returned (w : world) (e : error) :
  fst (Recv w) = inr e ->
  fst (handler w) = Some e /\
  outbound (snd (handler w)) = outbound w /\
  files (snd (handler w)) = files w /\
  made_dirs (snd (handler w)) = made_dirs w.
Proof.
  unfold handler, SendFileResource, Recv.
  destruct (inbound w) as [|[request|e0] rest]; simpl; intros H; by simplify_eq.
Qed.

End Upload_edges.

Section Upload_edge_scenarios.
Import Upload.

Definition other_path : string := "/data/7/stage/lines.txt".

(** A stale copy of the target and another file beside it; the second
    write fails after one byte. *)
Definition stale : world :=
  mkWorld [inl words; inl (chunk [Byte.x68; Byte.x69]);
           inl (chunk [Byte.x21; Byte.x21]); inl (chunk [Byte.x2e])]
          [] None [] None
          {[ words_path := [Byte.x6f; Byte.x6c; Byte.x64];
             other_path := [Byte.x6f; Byte.x6b] ]}
          None None
          [None; Some (1%nat, Err "no space left on device")].

Lemma must_receive_stale :
  must_receive slash_join slash_join byte_count "/data" words stale.
Proof.
  intros content Hc _.
  assert (content = [Byte.x6f; Byte.x6c; Byte.x64]) as ->
    by (vm_compute in Hc; congruence).
  by vm_compute.
Qed.

Lemma SendFileResource_touches_only_target_witness :
  files (snd (SendFileResource slash_join slash_join byte_count "/data" stale))
    !! other_path = Some [Byte.x6f; Byte.x6b].
Proof.
  etransitivity;
    [apply (SendFileResource_touches_only_target slash_join slash_join
              byte_count "/data" stale other_path)|reflexivity].
  intros request rest [= <- _]. by vm_compute.
Defined.

Lemma already_present_is_sound_witness :
  fst (SendFileResource slash_join slash_join byte_count "/data" staged) = None /\
  files (snd (SendFileResource slash_join slash_join byte_count "/data" staged))
    = files staged /\
  exists content,
    files staged !! words_path = Some content /\
    read_fault staged = None /\
    byte_count content = 2%Z.
Proof.
  apply (already_present_is_sound slash_join slash_join byte_count "/data"
           staged words [inl (chunk [Byte.x68; Byte.x69])]);
    reflexivity.
Defined.

(** The transport refuses the acknowledgement. *)
Definition refused : world :=
  mkWorld [inl words; inl (chunk [Byte.x68; Byte.x69])] []
          (Some (Err "transport is closing")) [] None
          {[ words_path := [Byte.x6f; Byte.x6c; Byte.x64] ]} None None [].

Lemma send_failure_leaves_file_witness :
  fst (SendFileResource slash_join slash_join byte_count "/data" refused)
    = Some (Err "transport is closing") /\
  outbound (snd (SendFileResource slash_join slash_join byte_count "/data" refused))
    = [] /\
  files (snd (SendFileResource slash_join slash_join byte_count "/data" refused))
    = files refused /\
  inbound (snd (SendFileResource slash_join slash_join byte_count "/data" refused))
    = [inl (chunk [Byte.x68; Byte.x69])].
Proof.
  apply (send_failure_leaves_file slash_join slash_join byte_count "/data"
           refused words [inl (chunk [Byte.x68; Byte.x69])]
           (Err "transport is closing"));
    reflexivity.
Defined.

(** The stale copy cannot be opened for writing. *)
Definition read_only : world :=
  mkWorld [inl words; inl (chunk [Byte.x68; Byte.x69])] [] None [] None
          {[ words_path := [Byte.x6f; Byte.x6c; Byte.x64] ]} None
          (Some (Err "open /data/7/stage/words.txt: permission denied")) [].

Lemma must_receive_read_only :
  must_receive slash_join slash_join byte_count "/data" words read_only.
Proof.
  intros content Hc _.
  assert (content = [Byte.x6f; Byte.x6c; Byte.x64]) as ->
    by (vm_compute in Hc; congruence).
  by vm_compute.
Qed.

Lemma open_failure_follows_acknowledgement_witness :
  fst (SendFileResource slash_join slash_join byte_count "/data" read_only)
    = Some (Err "open /data/7/stage/words.txt: permission denied") /\
  outbound (snd (SendFileResource slash_join slash_join byte_count "/data" read_only))
    = [mkResponse false true] /\
  files (snd (SendFileResource slash_join slash_join byte_count "/data" read_only))
    = files read_only /\
  inbound (snd (SendFileResource slash_join slash_join byte_count "/data" read_only))
    = [inl (chunk [Byte.x68; Byte.x69])].
Proof.
  apply (open_failure_follows_acknowledgement slash_join slash_join byte_count
           "/data" read_only words [inl (chunk [Byte.x68; Byte.x69])]
           (Err "open /data/7/stage/words.txt: permission denied"));
    [reflexivity|exact must_receive_read_only|reflexivity|reflexivity].
Defined.

Lemma write_failure_leaves_partial_file_witness :
  fst (SendFileResource slash_join slash_join byte_count "/data" stale)
    = Some (Err "no space left on device") /\
  files (snd (SendFileResource slash_join slash_join byte_count "/data" stale))
    !! words_path = Some [Byte.x68; Byte.x69; Byte.x21] /\
  inbound (snd (SendFileResource slash_join slash_join byte_count "/data" stale))
    = [inl (chunk [Byte.x2e])] /\
  outbound (snd (SendFileResource slash_join slash_join byte_count "/data" stale))
    = [mkResponse false true].
Proof.
  apply (write_failure_leaves_partial_file slash_join slash_join byte_count
           "/data" stale words
           [inl (chunk [Byte.x68; Byte.x69]); inl (chunk [Byte.x21; Byte.x21]);
            inl (chunk [Byte.x2e])]
           1%nat 1%nat (Err "no space left on device") [Byte.x21; Byte.x21]).
  - reflexivity.
  - exact must_receive_stale.
  - reflexivity.
  - reflexivity.
  - repeat constructor.
  - reflexivity.
  - reflexivity.
Defined.

(** A stale copy, and a disk that takes every write. *)
Definition outdated : world :=
  mkWorld [inl words; inl (chunk [Byte.x68]); inl (chunk [Byte.x69])]
          [] None [] None
          {[ words_path := [Byte.x6f; Byte.x6c; Byte.x64] ]} None None [].

Lemma stale_file_is_replaced_witness :
  fst (SendFileResource slash_join slash_join byte_count "/data" outdated) = None /\
  outbound (snd (SendFileResource slash_join slash_join byte_count "/data" outdated))
    = [mkResponse false true] /\
  files (snd (SendFileResource slash_join slash_join byte_count "/data" outdated))
    = <[words_path := [Byte.x68; Byte.x69]]> (files outdated).
Proof.
  apply (stale_file_is_replaced slash_join slash_join byte_count "/data"
           outdated words [inl (chunk [Byte.x68]); inl (chunk [Byte.x69])]
           [Byte.x6f; Byte.x6c; Byte.x64]).
  - reflexivity.
  - reflexivity.
  - by vm_compute.
  - reflexivity.
  - reflexivity.
  - constructor.
Defined.

Lemma must_receive_outdated :
  must_receive slash_join slash_join byte_count "/data" words outdated.
Proof.
  intros content Hc _.
  assert (content = [Byte.x6f; Byte.x6c; Byte.x64]) as ->
    by (vm_compute in Hc; congruence).
  by vm_compute.
Qed.

(** The same client comes again, to an agent whose files are as the first
    call left them. *)
Definition again : world :=
  mkWorld [inl words; inl (chunk [Byte.x68]); inl (chunk [Byte.x69])]
          [mkResponse false true] None [] None
          (files (snd (SendFileResource slash_join slash_join byte_count "/data"
                         outdated)))
          None None [].

Lemma second_upload_is_skipped_witness :
  fst (SendFileResource slash_join slash_join byte_count "/data" again) = None /\
  outbound (snd (SendFileResource slash_join slash_join byte_count "/data" again))
    = [mkResponse false true; mkResponse true true] /\
  files (snd (SendFileResource slash_join slash_join byte_count "/data" again))
    = files again /\
  inbound (snd (SendFileResource slash_join slash_join byte_count "/data" again))
    = [inl (chunk [Byte.x68]); inl (chunk [Byte.x69])].
Proof.
  apply (second_upload_is_skipped slash_join slash_join byte_count "/data"
           outdated again words
           [inl (chunk [Byte.x68]); inl (chunk [Byte.x69])]
           [inl (chunk [Byte.x68]); inl (chunk [Byte.x69])]).
  - reflexivity.
  - exact must_receive_outdated.
  - reflexivity.
  - reflexivity.
  - constructor.
  - reflexivity.
  - vm_compute. reflexivity.
  - reflexivity.
  - reflexivity.
  - reflexivity.
Defined.

(** The client closes the stream without sending anything. *)
Definition silent : world :=
  mkWorld [] [] None [] None {[ words_path := [Byte.x6f; Byte.x6b] ]} None None [].

Lemma first_receive_error_is_returned_witness :
  fst (SendFileResource slash_join slash_join byte_count "/data" silent)
    = Some io_EOF /\
  outbound (snd (SendFileResource slash_join slash_join byte_count "/data" silent))
    = [] /\
  files (snd (SendFileResource slash_join slash_join byte_count "/data" silent))
    = files silent /\
  made_dirs (snd (SendFileResource slash_join slash_join byte_count "/data" silent))
    = [].
Proof.
  apply (first_receive_error_is_returned slash_join slash_join byte_count "/data"
           silent io_EOF).
  reflexivity.
Defined.

End Upload_edge_scenarios.

Section MergeTo_facts.
Import MergeTo.

Lemma forward_accepts xs last w :
  accepts (length xs) w ->
  forward xs last w =
    (ReadStopped last, mkWriter (written w ++ xs) (drop (length xs) (faults w))).
Proof.
  revert w. induction xs as [|x xs IH]; intros [wr fs] Hacc; simpl.
  - by rewrite app_nil_r.
  - unfold WriteMessage; simpl. destruct fs as [|[e|] fs]; simpl in *.
    + rewrite IH by (unfold accepts; simpl; rewrite take_nil; constructor).
      simpl. rewrite drop_nil. by rewrite <- app_assoc.
    + by inversion Hacc.
    + inversion Hacc; subst. rewrite IH by done. simpl.
      by rewrite <- app_assoc.
Qed.

Lemma forward_fault xs last w k e :
  k < length xs ->
  accepts k w ->
  faults w !! k = Some (Some e) ->
  forward xs last w =
    (WriteStopped e, mkWriter (written w ++ take k xs) (drop (S k) (faults w))).
Proof.
  revert w k. induction xs as [|x xs IH]; intros [wr fs] k Hk Hacc Hf;
    simpl in *; [lia|].
  unfold WriteMessage; simpl. destruct k as [|k].
  - destruct fs as [|[e'|] fs]; simpl in *; try done.
    inversion Hf; subst. by rewrite app_nil_r.
  - destruct fs as [|[e'|] fs]; simpl in *; try done.
    + by inversion Hacc.
    + inversion Hacc; subst. rewrite (IH _ k) by (simpl; auto with lia).
      simpl. by rewrite <- app_assoc.
Qed.

Lemma accepts_le n m w : n <= m -> accepts m w -> accepts n w.
Proof.
  unfold accepts. intros Hle H.
  replace n with (n `min` m) by lia.
  rewrite <- take_take. by apply Forall_take.
Qed.

Lemma DoMergeTo_clean readers : forall w,
  accepts (length (readable readers)) w ->
  DoMergeTo readers w =
    (first_read_error readers,
     mkWriter (written w ++ readable readers)
              (drop (length (readable readers)) (faults w))).
Proof.
  induction readers as [|[xs last] rest IH]; intros w Hacc; simpl in *.
  - rewrite app_nil_r, drop_0. by destruct w.
  - rewrite length_app in Hacc.
    rewrite forward_accepts by (eapply accepts_le; [|exact Hacc]; lia).
    destruct (is_EOF last) eqn:Hlast; simpl in *.
    + rewrite IH; simpl.
      * rewrite length_app, drop_drop. by rewrite <- app_assoc.
      * unfold accepts in *; simpl.
        rewrite take_drop_commute. by apply Forall_drop.
    + by rewrite !app_nil_r.
Qed.

Lemma DoMergeTo_fault readers : forall w k e,
  k < length (readable readers) ->
  accepts k w ->
  faults w !! k = Some (Some e) ->
  DoMergeTo readers w =
    (Some e, mkWriter (written w ++ take k (readable readers))
                      (drop (S k) (faults w))).
Proof.
  induction readers as [|[xs last] rest IH]; intros w k e Hk Hacc Hf;
    simpl in *; [lia|].
  destruct (decide (k < length xs)) as [Hlt|Hge].
  - rewrite (forward_fault _ _ _ k e) by done.
    by rewrite take_app_le by lia.
  - rewrite forward_accepts by (eapply accepts_le; [|exact Hacc]; lia).
    rewrite length_app in Hk.
    destruct (is_EOF last); simpl in *; [|lia].
    rewrite (IH _ (k - length xs) e); simpl.
    + rewrite take_app_ge by lia. rewrite <- app_assoc, drop_drop.
      do 3 f_equal. lia.
    + lia.
    + unfold accepts in *; simpl.
      rewrite take_drop_commute.
      replace (length xs + (k - length xs)) with k by lia.
      by apply Forall_drop.
    + rewrite lookup_drop. by replace (length xs + (k - length xs)) with k by lia.
Qed.

Lemma readable_all_EOF readers :
  Forall (fun r => closing r = io_EOF) readers ->
  readable readers = concat (map pending readers) /\
  first_read_error readers = None.
Proof.
  induction 1 as [|r rest Hr _ [IH1 IH2]]; simpl; [done|].
  rewrite Hr; simpl. by rewrite IH1.
Qed.

Lemma readable_until_error before r after :
  Forall (fun r => closing r = io_EOF) before ->
  closing r <> io_EOF ->
  readable (before ++ r :: after) = concat (map pending (before ++ [r])) /\
  first_read_error (before ++ r :: after) = Some (closing r).
Proof.
  intros Hb Hr. induction Hb as [|r0 rest H0 _ [IH1 IH2]]; simpl.
  - destruct (closing r); try done; by rewrite !app_nil_r.
  - rewrite H0; simpl. by rewrite IH1.
Qed.

(** C10.  [DoMergeTo] forwards the messages of the readers in list order,
    and those of one reader in read order.  With a writer that accepts
    them all, what is written is the concatenation of the messages read
    and the result is the first read error that is not [io.EOF], nil
    when every reader ends in [io.EOF]; the readers after a failing one
    are not read.  When the [k]-th write is the first to fail, its error
    is returned and exactly the [k] messages before it are written. *)
Theorem DoMergeTo_concatenates (readers : list Reader) (w : Writer) :
  (Forall (fun r => closing r = io_EOF) readers ->
   accepts (length (concat (map pending readers))) w ->
   fst (DoMergeTo readers w) = None /\
   written (snd (DoMergeTo readers w)) =
     written w ++ concat (map pending readers)) /\
  (forall before r after,
     readers = before ++ r :: after ->
     Forall (fun r => closing r = io_EOF) before ->
     closing r <> io_EOF ->
     accepts (length (concat (map pending (before ++ [r])))) w ->
     fst (DoMergeTo readers w) = Some (closing r) /\
     written (snd (DoMergeTo readers w)) =
       written w ++ concat (map pending (before ++ [r]))) /\
  (forall k e,
     k < length (readable readers) ->
     accepts k w ->
     faults w !! k = Some (Some e) ->
     fst (DoMergeTo readers w) = Some e /\
     written (snd (DoMergeTo readers w)) =
       written w ++ take k (readable readers)).
Proof.
  split; [|split].
  - intros Hall Hacc. destruct (readable_all_EOF _ Hall) as [Hr He].
    rewrite <- Hr in *. rewrite DoMergeTo_clean by done. by rewrite He.
  - intros before r after -> Hb Hr Hacc.
    destruct (readable_until_error before r after Hb Hr) as [Hrd He].
    rewrite <- Hrd in *. rewrite DoMergeTo_clean by done. by rewrite He.
  - intros k e Hk Hacc Hf. by rewrite (DoMergeTo_fault _ _ k e).
Qed.

Definition hello : MergeTo.message := [Byte.x68; Byte.x69].
Definition bang : MergeTo.message := [Byte.x21].
Definition dots : MergeTo.message := [Byte.x2e; Byte.x2e].

Definition clean_readers : list Reader :=
  [mkReader [hello; bang] io_EOF; mkReader [] io_EOF; mkReader [dots] io_EOF].

Definition broken_readers : list Reader :=
  [mkReader [hello] io_EOF; mkReader [bang] (Err "unexpected EOF");
   mkReader [dots] io_EOF].

Lemma DoMergeTo_concatenates_witness :
  (fst (DoMergeTo clean_readers (mkWriter [] [])) = None /\
   written (snd (DoMergeTo clean_readers (mkWriter [] []))) = [hello; bang; dots]) /\
  (fst (DoMergeTo broken_readers (mkWriter [] [])) = Some (Err "unexpected EOF") /\
   written (snd (DoMergeTo broken_readers (mkWriter [] []))) = [hello; bang]) /\
  (fst (DoMergeTo clean_readers (mkWriter [] [None; None; Some (Err "disk full")]))
     = Some (Err "disk full") /\
   written (snd (DoMergeTo clean_readers
                   (mkWriter [] [None; None; Some (Err "disk full")])))
     = [hello; bang]).
Proof.
  split; [|split].
  - destruct (DoMergeTo_concatenates clean_readers (mkWriter [] [])) as (H & _ & _).
    apply H; [repeat constructor|constructor].
  - destruct (DoMergeTo_concatenates broken_readers (mkWriter [] []))
      as (_ & H & _).
    apply (H [mkReader [hello] io_EOF] (mkReader [bang] (Err "unexpected EOF"))
             [mkReader [dots] io_EOF]);
      [reflexivity|repeat constructor|discriminate|constructor].
  - destruct (DoMergeTo_concatenates clean_readers
                (mkWriter [] [None; None; Some (Err "disk full")]))
      as (_ & _ & H).
    apply (H 2%nat (Err "disk full")); [simpl; lia|repeat constructor|reflexivity].
Defined.

End MergeTo_facts.

Section MergeTo_edges.
Import MergeTo.

Lemma forward_written xs last : forall w,
  match fst (forward xs last w) with
  | ReadStopped err =>
      err = last /\ written (snd (forward xs last w)) = written w ++ xs
  | WriteStopped _ =>
      exists k, k < length xs /\
        written (snd (forward xs last w)) = written w ++ take k xs
  end.
Proof.
  induction xs as [|x xs IH]; intros w; simpl.
  - by rewrite app_nil_r.
  - unfold WriteMessage.
    destruct (faults w) as [|[e|] fs]; simpl.
    + specialize (IH (mkWriter (written w ++ [x]) [])).
      destruct (fst (forward xs last _)); simpl in *.
      * destruct IH as [-> ->]. by rewrite <- app_assoc.
      * destruct IH as (k & Hk & ->). exists (S k). split; [lia|].
        by rewrite <- app_assoc.
    + exists 0%nat. split; [lia|]. by rewrite app_nil_r.
    + specialize (IH (mkWriter (written w ++ [x]) fs)).
      destruct (fst (forward xs last _)); simpl in *.
      * destruct IH as [-> ->]. by rewrite <- app_assoc.
      * destruct IH as (k & Hk & ->). exists (S k). split; [lia|].
        by rewrite <- app_assoc.
Qed.

(** Merging the readers of two lists one after the other is merging
    their concatenation: [DoMergeTo] on [rs1 ++ rs2] is [DoMergeTo] on
    [rs1], followed, when that returned nil, by [DoMergeTo] on [rs2] with
    the writer as the first call left it; an error of the first part is
    the result and [rs2] is not read. *)
Theorem DoMergeTo_app (rs1 rs2 : list Reader) (w : Writer) :
  DoMergeTo (rs1 ++ rs2) w =
    match DoMergeTo rs1 w with
    | (None, w') => DoMergeTo rs2 w'
    | (Some e, w') => (Some e, w')
    end.
Proof.
  revert w. induction rs1 as [|r rs1 IH]; intros w; simpl; [done|].
  destruct (forward (pending r) (closing r) w) as [[err|e] w']; [|done].
  destruct (is_EOF err); [apply IH|done].
Qed.

(** [DoMergeTo] returns nil only when nothing went wrong: every reader
    has ended in [io.EOF] and every message of every reader has been
    written, in order, after what the writer held. *)
Theorem DoMergeTo_nil_means_all_forwarded (readers : list Reader) (w : Writer) :
  fst (DoMergeTo readers w) = None ->
  Forall (fun r => closing r = io_EOF) readers /\
  written (snd (DoMergeTo readers w)) =
    written w ++ concat (map pending readers).
Proof.
  revert w. induction readers as [|r rest IH]; intros w; simpl.
  - intros _. by rewrite app_nil_r.
  - pose proof (forward_written (pending r) (closing r) w) as Hfw.
    destruct (forward (pending r) (closing r) w) as [[err|e] w'];
      simpl in *; [|done].
    destruct Hfw as [-> Hw'].
    destruct (closing r) eqn:Hclose; simpl; try done.
    intros Hnil. destruct (IH w' Hnil) as [Hall ->].
    split; [by constructor|]. by rewrite Hw', <- app_assoc.
Qed.

(** Whatever the writer answers, [DoMergeTo] writes a prefix of the
    messages it can read, in their order and with none left out, after
    what the writer held; it removes and reorders nothing. *)
Theorem DoMergeTo_writes_a_prefix (readers : list Reader) (w : Writer) :
  exists k,
    written (snd (DoMergeTo readers w)) = written w ++ take k (readable readers).
Proof.
  revert w. induction readers as [|r rest IH]; intros w; simpl.
  - exists 0%nat. by rewrite app_nil_r.
  - pose proof (forward_written (pending r) (closing r) w) as Hfw.
    destruct (forward (pending r) (closing r) w) as [[err|e] w'];
      simpl in *.
    + destruct Hfw as [-> Hw'].
      destruct (is_EOF (closing r)); simpl.
      * destruct (IH w') as [k ->]. exists (length (pending r) + k)%nat.
        rewrite Hw', <- app_assoc. f_equal.
        rewrite take_app_ge by lia.
        by replace (length (pending r) + k - length (pending r))%nat with k by lia.
      * exists (length (pending r)). rewrite app_nil_r.
        by rewrite firstn_all.
    + destruct Hfw as (k & Hk & ->). exists k.
      by rewrite take_app_le by lia.
Qed.

Lemma DoMergeTo_nil_means_all_forwarded_witness :
  Forall (fun r => closing r = io_EOF) clean_readers /\
  written (snd (DoMergeTo clean_readers (mkWriter [dots] [None])))
    = [dots; hello; bang; dots].
Proof.
  apply (DoMergeTo_nil_means_all_forwarded clean_readers (mkWriter [dots] [None])).
  reflexivity.
Defined.

End MergeTo_edges.
